(** * Coggomul: the game session engine and the rank evaluator

    A shallow embedding of the React component [App] (session state and its
    handlers), of the form guard of [GameScreen], of the tail of
    [calculateSimilarity] and of [calculateRank] from [GameOverScreen],
    followed by the properties of the specification that concern them.

    Numbers.  A JavaScript [number] that holds a similarity, a threshold or
    a multiplier is a binary64 float ([PrimFloat.float]).  A [number] that
    only ever holds an integer (lives, seconds, scores, points) is a [Z];
    the values reached in a session stay far below 2^53, where binary64
    arithmetic on integers is exact. *)

From Stdlib Require Import ZArith Bool List Sorted String Lia.
From Stdlib Require Import DecimalString.
From Stdlib Require DecimalZ DecimalPos.
From Stdlib Require Import PrimFloat FloatOps SpecFloat FloatAxioms Uint63.
Import ListNotations.

Set Warnings "-inexact-float".
Local Open Scope string_scope.
Local Open Scope Z_scope.

(** ** JavaScript primitives used by the handlers *)

Module JS.

(** The outcome of an awaited promise: fulfilled with a value, or
    rejected with an [Error] whose [message] is kept. *)
Inductive Settled (A : Type) : Type :=
| Fulfilled (v : A)
| Rejected (message : string).
Arguments Fulfilled {A} v.
Arguments Rejected {A} message.

(** [Math.round]: the integer closest to [x], a tie going towards
    +Infinity.  A finite binary64 is [(-1)^s * m * 2^e]; the rounding is
    computed exactly on that decomposition.  On NaN and the infinities
    JavaScript returns the argument itself, which is not an integer; the
    model returns [0] there (and treats -0 as 0). *)
Definition Math_round (x : float) : Z :=
  match Prim2SF x with
  | S754_finite s m e =>
      let n := if s then Z.neg m else Z.pos m in
      if 0 <=? e then n * 2 ^ e
      else (2 * n + 2 ^ (- e)) / 2 ^ (1 - e)
  | _ => 0
  end.

(** An integer read back as a binary64 (exact below 2^53, correctly
    rounded below 2^63). *)
Definition of_Z (z : Z) : float :=
  if z <? 0 then PrimFloat.opp (PrimFloat.of_uint63 (Uint63.of_Z (- z)))
  else PrimFloat.of_uint63 (Uint63.of_Z z).

(** [Math.min] and [Math.max] on floats; NaN is contagious.  (Where the
    source uses them one argument is [1] or [-1], so the order of the two
    zeros never matters.) *)
Definition Math_min (a b : float) : float :=
  if is_nan a || is_nan b then nan
  else if (b <? a)%float then b else a.

Definition Math_max (a b : float) : float :=
  if is_nan a || is_nan b then nan
  else if (a <? b)%float then b else a.

(** Template-literal rendering of an integer. *)
Definition toString (z : Z) : string := NilZero.string_of_int (Z.to_int z).

(** [Set.prototype.has] on a set of strings kept as a list. *)
Definition has (s : list string) (w : string) : bool :=
  existsb (String.eqb w) s.

End JS.
Import JS.

Notation "st |> f" := (f st) (at level 45, left associativity, only parsing).

(** ** types.ts *)

Inductive GameState : Type :=
| SELECTING_DIFFICULTY
| PLAYING
| GAME_OVER.

Definition GameState_eqb (a b : GameState) : bool :=
  match a, b with
  | SELECTING_DIFFICULTY, SELECTING_DIFFICULTY => true
  | PLAYING, PLAYING => true
  | GAME_OVER, GAME_OVER => true
  | _, _ => false
  end.

Record Difficulty : Type := mkDifficulty {
  name : string;
  threshold : float;
  multiplier : float
}.

Record GameAttempt : Type := mkAttempt {
  previousWord : string;
  newWord : string;
  similarity : float;
  success : bool;
  requiredThreshold : float;
  points : Z
}.

(** ** geminiService.ts: the tail of [calculateSimilarity]

    [parsed] is the outcome of the request followed by [parseFloat] on the
    first number of the reply.  A value that is NaN or infinite is turned
    into a rejection; a finite one is clamped to [-1, 1]. *)
Definition parseFailure : string :=
  "모델로부터 유효한 유사도 점수를 파싱할 수 없습니다.".

Definition calculateSimilarity (parsed : Settled float) : Settled float :=
  match parsed with
  | Fulfilled x =>
      if negb (is_nan x) && is_finite x
      then Fulfilled (Math_max (-1) (Math_min 1 x))
      else Rejected parseFailure
  | Rejected message => Rejected message
  end.

(** ** DifficultySelector.tsx: what [onSelect] can be called with

    Either one of the three level buttons, or the custom form, whose
    [handleCustomSubmit] calls [onSelect] only for a percentage [1..100]
    ([thresholdValue] is the [parseInt] of the field). *)
Definition predefinedDifficulties : list Difficulty :=
  [ mkDifficulty "쉬움" 0.25 0.25;
    mkDifficulty "보통" 0.50 1.0;
    mkDifficulty "어려움" 0.75 2.0 ].

Definition handleCustomSubmit (thresholdValue : Z) : option Difficulty :=
  if (thresholdValue >? 0) && (thresholdValue <=? 100)
  then Some (mkDifficulty "커스텀" (of_Z thresholdValue / 100)%float 1.0)
  else None.

Inductive Choice : Type :=
| Level (index : nat)
| Custom (thresholdValue : Z).

Definition selected (c : Choice) : option Difficulty :=
  match c with
  | Level index => nth_error predefinedDifficulties index
  | Custom thresholdValue => handleCustomSubmit thresholdValue
  end.

(** ** GameOverScreen: [calculateRank] *)

Module Leaderboard.

Record LeaderboardEntry : Type := mkEntry {
  name : string;
  score : Z
}.

(** The [for] loop of [calculateRank], entered at index [i] with [rest]
    the entries from [i] on: it leaves with [i + 1] at the first entry
    that [scoreToRank] beats or ties, and with [null] past the end. *)
Fixpoint scan (scoreToRank : Z) (i : Z) (rest : list LeaderboardEntry)
  : option Z :=
  match rest with
  | [] => None
  | e :: rest' =>
      if scoreToRank >? score e then Some (i + 1)
      else if scoreToRank =? score e then Some (i + 1)
      else scan scoreToRank (i + 1) rest'
  end.

Definition calculateRank (scoreToRank : Z)
           (currentLeaderboard : list LeaderboardEntry) : option Z :=
  if scoreToRank <=? 0 then None
  else
    match scan scoreToRank 0 currentLeaderboard with
    | Some rank => Some rank
    | None =>
        if Z.of_nat (List.length currentLeaderboard) <? 3
        then Some (Z.of_nat (List.length currentLeaderboard) + 1)
        else None
    end.

(** The contract in the words of the specification: the index of the
    first entry with [candidateScore >= entry.score]. *)
Fixpoint firstIndex (p : LeaderboardEntry -> bool)
         (l : list LeaderboardEntry) : option nat :=
  match l with
  | [] => None
  | e :: l' =>
      if p e then Some 0%nat
      else option_map S (firstIndex p l')
  end.

Definition rankContract (candidateScore : Z)
           (leaderboard : list LeaderboardEntry) : option Z :=
  if candidateScore <=? 0 then None
  else
    match firstIndex (fun e => candidateScore >=? score e) leaderboard with
    | Some index => Some (1 + Z.of_nat index)
    | None =>
        if (List.length leaderboard <? 3)%nat
        then Some (Z.of_nat (List.length leaderboard) + 1)
        else None
    end.

End Leaderboard.

(** ** App: the session state

    One field per [useState] cell of the component that the engine reads
    or writes ([isMuted] and [isShaking] only drive presentation). *)

Module App.

Record State : Type := mkState {
  gameState : GameState;
  difficulty : option Difficulty;
  currentThreshold : float;
  score : Z;
  currentWord : string;
  history : list GameAttempt;
  lives : Z;
  isLoading : bool;
  error : option string;
  timeLeft : Z
}.

(** [useState] initial values. *)
Definition initial : State :=
  {| gameState := SELECTING_DIFFICULTY;
     difficulty := None;
     currentThreshold := 0;
     score := 0;
     currentWord := EmptyString;
     history := [];
     lives := 3;
     isLoading := false;
     error := None;
     timeLeft := 30 |}.

(** *** State setters.  [setX v] stores a value; [updX f] is the
    functional form [setX(prev => f prev)]. *)

Definition setGameState (v : GameState) (st : State) : State :=
  mkState v (difficulty st) (currentThreshold st) (score st)
          (currentWord st) (history st) (lives st) (isLoading st)
          (error st) (timeLeft st).

Definition setDifficulty (v : option Difficulty) (st : State) : State :=
  mkState (gameState st) v (currentThreshold st) (score st)
          (currentWord st) (history st) (lives st) (isLoading st)
          (error st) (timeLeft st).

Definition setCurrentThreshold (v : float) (st : State) : State :=
  mkState (gameState st) (difficulty st) v (score st)
          (currentWord st) (history st) (lives st) (isLoading st)
          (error st) (timeLeft st).

Definition setScore (v : Z) (st : State) : State :=
  mkState (gameState st) (difficulty st) (currentThreshold st) v
          (currentWord st) (history st) (lives st) (isLoading st)
          (error st) (timeLeft st).

Definition setCurrentWord (v : string) (st : State) : State :=
  mkState (gameState st) (difficulty st) (currentThreshold st) (score st)
          v (history st) (lives st) (isLoading st)
          (error st) (timeLeft st).

Definition setHistory (v : list GameAttempt) (st : State) : State :=
  mkState (gameState st) (difficulty st) (currentThreshold st) (score st)
          (currentWord st) v (lives st) (isLoading st)
          (error st) (timeLeft st).

Definition setLives (v : Z) (st : State) : State :=
  mkState (gameState st) (difficulty st) (currentThreshold st) (score st)
          (currentWord st) (history st) v (isLoading st)
          (error st) (timeLeft st).

Definition setIsLoading (v : bool) (st : State) : State :=
  mkState (gameState st) (difficulty st) (currentThreshold st) (score st)
          (currentWord st) (history st) (lives st) v
          (error st) (timeLeft st).

Definition setError (v : option string) (st : State) : State :=
  mkState (gameState st) (difficulty st) (currentThreshold st) (score st)
          (currentWord st) (history st) (lives st) (isLoading st)
          v (timeLeft st).

Definition setTimeLeft (v : Z) (st : State) : State :=
  mkState (gameState st) (difficulty st) (currentThreshold st) (score st)
          (currentWord st) (history st) (lives st) (isLoading st)
          (error st) v.

Definition updScore (f : Z -> Z) (st : State) : State :=
  setScore (f (score st)) st.

Definition updHistory (f : list GameAttempt -> list GameAttempt)
           (st : State) : State :=
  setHistory (f (history st)) st.

Definition updCurrentThreshold (f : float -> float) (st : State) : State :=
  setCurrentThreshold (f (currentThreshold st)) st.

(** *** handleTimeout

    The callback closes over [lives], [currentWord] and
    [currentThreshold] of the render it was created in; [useInterval]
    re-saves it after every render, so the interval always runs the
    callback of the current state. *)

Definition timeoutMarker : string := "(시간 초과)".

Definition handleTimeout (st : State) : State :=
  let newLives := lives st - 1 in
  let attempt :=
    {| previousWord := currentWord st;
       newWord := timeoutMarker;
       similarity := 0;
       success := false;
       requiredThreshold := currentThreshold st;
       points := -1000 |} in
  let st' :=
    st |> setLives newLives
       |> updScore (fun prev => Z.max 0 (prev - 1000))
       |> updHistory (fun prev => (prev ++ [attempt])%list) in
  if newLives <=? 0 then
    st' |> setGameState GAME_OVER
  else
    st' |> setError (Some ("시간 초과! 남은 기회: " ++ toString newLives ++ "번."))
        |> setTimeLeft 30.

(** *** useInterval(..., (gameState === PLAYING && !isLoading) ? 1000 : null) *)

Definition intervalDelay (st : State) : option Z :=
  if GameState_eqb (gameState st) PLAYING && negb (isLoading st)
  then Some 1000
  else None.

Definition intervalCallback (st : State) : State :=
  if timeLeft st <=? 1 then handleTimeout st
  else st |> setTimeLeft (timeLeft st - 1).

(** *** handleSelectDifficulty, split at its [await] *)

Definition handleSelectDifficulty_begin
           (selectedDifficulty : Difficulty) (st : State) : State :=
  st |> setDifficulty (Some selectedDifficulty)
     |> setCurrentThreshold (threshold selectedDifficulty)
     |> setIsLoading true
     |> setError None
     |> setHistory []
     |> setScore 0
     |> setLives 3
     |> setTimeLeft 30.

(** [firstWord] is the outcome of [await getRandomKoreanWord()]; the
    [finally] block runs on both paths. *)
Definition handleSelectDifficulty_resume
           (firstWord : Settled string) (st : State) : State :=
  match firstWord with
  | Fulfilled w =>
      st |> setCurrentWord w
         |> setGameState PLAYING
  | Rejected message =>
      st |> setError (Some message)
         |> setGameState SELECTING_DIFFICULTY
  end |> setIsLoading false.

(** *** handleSubmitWord, split at its [await]

    The part after the [await] still runs in the closure of the render in
    which the submission started: [currentWord], [difficulty],
    [currentThreshold], [history] and [lives] are the captured values,
    while the functional setters act on the state current at that time. *)

Record Closure : Type := mkClosure {
  cl_newWord : string;
  cl_currentWord : string;
  cl_difficulty : Difficulty;
  cl_currentThreshold : float;
  cl_history : list GameAttempt;
  cl_lives : Z
}.

Inductive Started : Type :=
| Returned (st : State)
| Awaiting (st : State) (k : Closure).

Definition allPreviouslyUsedWords (st : State) : list string :=
  (map newWord (history st)
       ++ [match history st with
           | first :: _ => previousWord first
           | [] => currentWord st
           end])%list.

Definition usedWordError : string :=
  "이미 사용한 단어입니다. 다른 단어를 입력해주세요.".

Definition handleSubmitWord_begin (w : string) (st : State) : Started :=
  match difficulty st with
  | None => Returned st
  | Some d =>
      if (currentWord st =? EmptyString)%string then Returned st
      else if has (allPreviouslyUsedWords st) w then
        Returned (st |> setError (Some usedWordError))
      else
        Awaiting (st |> setIsLoading true |> setError None)
                 {| cl_newWord := w;
                    cl_currentWord := currentWord st;
                    cl_difficulty := d;
                    cl_currentThreshold := currentThreshold st;
                    cl_history := history st;
                    cl_lives := lives st |}
  end.

Definition basePoints (sim thr : float) : Z :=
  Math_round ((sim - thr) * 10000)%float.

Definition roundNumber (h : list GameAttempt) : Z :=
  Z.of_nat (List.length (filter success h)) + 1.

Definition bonusPoints (base round : Z) : Z :=
  Math_round (of_Z base * (of_Z round * 0.2))%float.

Definition totalPoints (base bonus : Z) (mult : float) : Z :=
  Math_round (of_Z (base + bonus) * mult)%float.

Definition handleSubmitWord_resume
           (k : Closure) (result : Settled float) (st : State) : State :=
  match result with
  | Fulfilled sim =>
      if (cl_currentThreshold k <=? sim)%float then
        let base := basePoints sim (cl_currentThreshold k) in
        let round := roundNumber (cl_history k) in
        let bonus := bonusPoints base round in
        let total := totalPoints base bonus (multiplier (cl_difficulty k)) in
        let attempt :=
          {| previousWord := cl_currentWord k;
             newWord := cl_newWord k;
             similarity := sim;
             success := true;
             requiredThreshold := cl_currentThreshold k;
             points := total |} in
        st |> updHistory (fun prev => (prev ++ [attempt])%list)
           |> updScore (fun prev => prev + total)
           |> setCurrentWord (cl_newWord k)
           |> updCurrentThreshold (fun prev => (prev + 0.01)%float)
           |> setLives 3
           |> setTimeLeft 30
      else
        let newLives := cl_lives k - 1 in
        let st1 :=
          st |> setLives newLives
             |> updScore (fun prev => Z.max 0 (prev - 1000)) in
        let attempt :=
          {| previousWord := cl_currentWord k;
             newWord := cl_newWord k;
             similarity := sim;
             success := false;
             requiredThreshold := cl_currentThreshold k;
             points := -1000 |} in
        let st2 := st1 |> updHistory (fun prev => (prev ++ [attempt])%list) in
        if newLives <=? 0 then
          st2 |> setGameState GAME_OVER
        else
          st2 |> setError (Some ("유사도 부족! 남은 기회: "
                                   ++ toString newLives ++ "번."))
              |> setTimeLeft 30
  | Rejected message =>
      st |> setError (Some message)
  end |> setIsLoading false.

(** *** handleRestart *)

Definition handleRestart (st : State) : State :=
  st |> setGameState SELECTING_DIFFICULTY
     |> setDifficulty None
     |> setCurrentThreshold 0
     |> setScore 0
     |> setCurrentWord EmptyString
     |> setHistory []
     |> setError None.

(** *** renderContent

    The screen that [App] mounts for the phase, with the props through
    which that screen reaches the engine: [GameScreen] is given
    [onSubmit = handleSubmitWord] and [isLoading], [GameOverScreen] is
    given [onRestart = handleRestart], and [DifficultySelector] is given
    [onSelect = handleSelectDifficulty] and [isLoading].  The handlers are
    those of the render, closed over its state; of an asynchronous handler
    the prop holds the part up to its [await]. *)

Inductive Rendered : Type :=
| GameScreen (onSubmit : string -> Started) (loading : bool)
| GameOverScreen (onRestart : State)
| DifficultySelector (onSelect : Difficulty -> State) (loading : bool).

Definition renderContent (st : State) : Rendered :=
  match gameState st with
  | PLAYING =>
      GameScreen (fun w => handleSubmitWord_begin w st) (isLoading st)
  | GAME_OVER =>
      GameOverScreen (handleRestart st)
  | SELECTING_DIFFICULTY =>
      DifficultySelector (fun d => handleSelectDifficulty_begin d st)
                         (isLoading st)
  end.

(** *** GameScreen.handleSubmit

    The handler of the word form, with [trimmed] for [inputValue.trim()]:
    [onSubmit] is called only with a word that is not empty and only while
    nothing is loading. *)

Definition GameScreen_handleSubmit (trimmed : string)
           (onSubmit : string -> Started) (loading : bool)
  : option Started :=
  if negb (trimmed =? EmptyString)%string && negb loading
  then Some (onSubmit trimmed)
  else None.

(** A submission of the word form: it exists only on [GameScreen], and
    reaches [handleSubmitWord] through [GameScreen.handleSubmit]. *)
Definition submitWord (trimmed : string) (st : State) : option Started :=
  match renderContent st with
  | GameScreen onSubmit loading =>
      GameScreen_handleSubmit trimmed onSubmit loading
  | GameOverScreen _ => None
  | DifficultySelector _ _ => None
  end.

End App.
Import App.

(** ** The component as a transition system

    What can happen to a mounted [App]: a click on a difficulty button, a
    tick of the interval, a submission of the word form, a click on the
    restart button, and the settling of the one oracle call that may be
    outstanding.  Each event is guarded the way the rendering guards it:
    [renderContent] mounts [DifficultySelector] only while selecting,
    [GameScreen] only while playing and [GameOverScreen] only when the game
    is over; buttons are disabled while [isLoading]; the interval runs only
    while [intervalDelay] is not [null].  A submission of the word form is
    dispatched through the mounted screen ([submitWord]). *)

Module Session.

Inductive Call : Type :=
| NoCall
| RandomWordCall
| SimilarityCall (k : Closure).

(** [startingWord] is ghost state: the word delivered by the last
    fulfilled [getRandomKoreanWord()].  No handler reads it. *)
Record Machine : Type := mkMachine {
  app : State;
  call : Call;
  startingWord : string
}.

Inductive Event : Type :=
| SelectDifficulty (c : Choice)
| RandomWordSettled (firstWord : Settled string)
| IntervalTick
| SubmitWord (trimmed : string)
| SimilaritySettled (parsed : Settled float)
| Restart.

Definition mounted : Machine := mkMachine initial NoCall EmptyString.

Definition step (m : Machine) (ev : Event) : option Machine :=
  let st := app m in
  match ev with
  | SelectDifficulty c =>
      match selected c with
      | Some d =>
          if GameState_eqb (gameState st) SELECTING_DIFFICULTY
             && negb (isLoading st)
          then Some (mkMachine (handleSelectDifficulty_begin d st)
                               RandomWordCall (startingWord m))
          else None
      | None => None
      end
  | RandomWordSettled firstWord =>
      match call m with
      | RandomWordCall =>
          Some (mkMachine (handleSelectDifficulty_resume firstWord st)
                          NoCall
                          match firstWord with
                          | Fulfilled w => w
                          | Rejected _ => startingWord m
                          end)
      | _ => None
      end
  | IntervalTick =>
      match intervalDelay st with
      | Some _ => Some (mkMachine (intervalCallback st) (call m)
                                  (startingWord m))
      | None => None
      end
  | SubmitWord trimmed =>
      match submitWord trimmed st with
      | Some (Returned st') => Some (mkMachine st' (call m) (startingWord m))
      | Some (Awaiting st' k) =>
          Some (mkMachine st' (SimilarityCall k) (startingWord m))
      | None => None
      end
  | SimilaritySettled parsed =>
      match call m with
      | SimilarityCall k =>
          Some (mkMachine
                  (handleSubmitWord_resume k (calculateSimilarity parsed) st)
                  NoCall (startingWord m))
      | _ => None
      end
  | Restart =>
      if GameState_eqb (gameState st) GAME_OVER
      then Some (mkMachine (handleRestart st) (call m) (startingWord m))
      else None
  end.

Fixpoint run (m : Machine) (evs : list Event) : option Machine :=
  match evs with
  | [] => Some m
  | ev :: evs' =>
      match step m ev with
      | Some m' => run m' evs'
      | None => None
      end
  end.

Definition reachable (m : Machine) : Prop :=
  exists evs, run mounted evs = Some m.

(** The set of used words in the words of the specification: the
    starting word plus every [newWord] recorded in the history. *)
Definition usedWords (m : Machine) : list string :=
  startingWord m :: map newWord (history (app m)).

(** How often [w] is the [newWord] of an attempt of [h]. *)
Definition occurrences (w : string) (h : list GameAttempt) : nat :=
  List.length (filter (fun a => (newWord a =? w)%string) h).

End Session.
Import Session.

(** * Vocabulary of the properties *)

(** ** Invariant of the reachable states *)

(** The word the session started from, as [handleSubmitWord] recovers
    it. *)
Definition firstWordOf (st : State) : string :=
  match history st with
  | first :: _ => previousWord first
  | [] => currentWord st
  end.

(** The closure of an outstanding submission still describes the state. *)
Definition fresh (k : Closure) (st : State) : Prop :=
  cl_currentWord k = currentWord st
  /\ difficulty st = Some (cl_difficulty k)
  /\ cl_currentThreshold k = currentThreshold st
  /\ cl_history k = history st
  /\ cl_lives k = lives st
  /\ ~ In (cl_newWord k) (map newWord (history st)).

Record Inv (m : Machine) : Prop := mkInv {
  inv_lives : 0 <= lives (app m) <= 3;
  inv_playing : gameState (app m) = PLAYING -> 1 <= lives (app m);
  inv_over : gameState (app m) = GAME_OVER -> lives (app m) = 0;
  inv_time : 1 <= timeLeft (app m) <= 30;
  inv_selecting :
    gameState (app m) = SELECTING_DIFFICULTY ->
    currentWord (app m) = EmptyString /\ history (app m) = [];
  inv_call :
    match call m with
    | NoCall => isLoading (app m) = false
    | RandomWordCall =>
        isLoading (app m) = true
        /\ gameState (app m) = SELECTING_DIFFICULTY
        /\ lives (app m) = 3
    | SimilarityCall k =>
        isLoading (app m) = true
        /\ gameState (app m) = PLAYING
        /\ fresh k (app m)
    end;
  inv_first :
    gameState (app m) <> SELECTING_DIFFICULTY ->
    firstWordOf (app m) = startingWord m;
  inv_distinct :
    forall w, w <> timeoutMarker ->
              (occurrences w (history (app m)) <= 1)%nat
}.

(** ** Concrete states and sessions *)

(** The state a trace of events leads to from the mounted component
    (the mounted component itself when the trace cannot happen). *)
Definition after (evs : list Event) : Machine :=
  match run mounted evs with
  | Some m => m
  | None => mounted
  end.

(** A start whose oracle call is rejected, from the state [st] in which the
    difficulty button was clicked. *)
Definition failedStart (d : Difficulty) (message : string) (st : State)
  : State :=
  handleSelectDifficulty_resume (Rejected message)
                                (handleSelectDifficulty_begin d st).

(** The session of the documented scenario: threshold 0.5, multiplier 2,
    nothing submitted yet. *)
Definition scenario : State :=
  mkState PLAYING (Some (mkDifficulty "시나리오" 0.5 2.0)) 0.5 0 "바다" []
          3 false None 30.

(** Two states in play, with one and with three lives, one second
    before the timeout. *)
Definition lastLife : State :=
  mkState PLAYING (Some (mkDifficulty "보통" 0.50 1.0)) 0.5 400 "바다" []
          1 false None 1.

Definition firstRound : State :=
  mkState PLAYING (Some (mkDifficulty "보통" 0.50 1.0)) 0.5 400 "바다" []
          3 false None 1.

(** The middle level, [Level 1] of the selector. *)
Definition normal : Difficulty := mkDifficulty "보통" 0.50 1.0.

(** A session on the middle level: three submissions in a row that the
    oracle scores below the threshold. *)
Definition threeFailures : list Event :=
  [ SelectDifficulty (Level 1);
    RandomWordSettled (Fulfilled "바다");
    SubmitWord "책상"; SimilaritySettled (Fulfilled 0.1%float);
    SubmitWord "연필"; SimilaritySettled (Fulfilled 0.2%float);
    SubmitWord "구두"; SimilaritySettled (Fulfilled 0.3%float) ].

(** A session in which the player types the text of the timeout marker,
    the oracle accepts it, and the next round then times out. *)
Definition markerThenTimeout : list Event :=
  ([ SelectDifficulty (Level 1);
     RandomWordSettled (Fulfilled "바다");
     SubmitWord "(시간 초과)"; SimilaritySettled (Fulfilled 0.9%float) ]
     ++ repeat IntervalTick 30)%list.

(** A session with a submission on its way to the oracle. *)
Definition inFlight : list Event :=
  [ SelectDifficulty (Level 1);
    RandomWordSettled (Fulfilled "바다");
    SubmitWord "파도" ].

(** A session that has just started. *)
Definition started : list Event :=
  [ SelectDifficulty (Level 1); RandomWordSettled (Fulfilled "바다") ].

(** * The rest of the code *)

(** ** GameOverScreen: which words the final similarity compares

    [calculateFinalWordSimilarity] of the mount effect: nothing is done on
    an empty history; otherwise the first word is the [previousWord] of
    the first attempt, the last word the [newWord] of the last successful
    attempt (the first word when there is none), and the oracle is asked
    only when the two differ. *)

Module GameOver.

Inductive FinalSimilarity : Type :=
| NotComputed
| SetTo (value : float)
| AskOracle (firstWord lastWord : string).

Definition calculateFinalWordSimilarity (history : list GameAttempt)
  : FinalSimilarity :=
  match history with
  | [] => NotComputed
  | first :: _ =>
      let firstWord := previousWord first in
      let lastWord :=
        match find success (rev history) with
        | Some lastSuccessfulAttempt => newWord lastSuccessfulAttempt
        | None => firstWord
        end in
      if negb (firstWord =? lastWord)%string
      then AskOracle firstWord lastWord
      else SetTo 1.0
  end.

End GameOver.

(** ** Signs of floats, and the difficulties on offer *)

(** Not a negative finite number: a zero, a positive finite number, or one
    of the values (NaN, the infinities) on which the rounding of the model
    gives 0. *)
Definition nonnegSF (f : spec_float) : Prop :=
  match f with
  | S754_finite true _ _ => False
  | _ => True
  end.

Definition nonneg (x : float) : Prop := nonnegSF (Prim2SF x).

(** A threshold in (0, 1] and a positive multiplier. *)
Definition validDifficulty (d : Difficulty) : bool :=
  (0 <? threshold d)%float && (threshold d <=? 1)%float
  && (0 <? multiplier d)%float.

(** ** What a history says about the session *)

(** A quantity that every attempt records ([seen]) and that the attempt
    then moves on ([next]): the history traces it from [s]. *)
Section Traced.
Variable S : Type.
Variable next : S -> GameAttempt -> S.
Variable seen : GameAttempt -> S.

Fixpoint traced (s : S) (h : list GameAttempt) : Prop :=
  match h with
  | [] => True
  | a :: h' => seen a = s /\ traced (next s a) h'
  end.
End Traced.
Arguments traced {S} next seen s h.

(** The word to answer: replaced by every accepted word. *)
Definition nextWord (w : string) (a : GameAttempt) : string :=
  if success a then newWord a else w.

Definition endWord (w : string) (h : list GameAttempt) : string :=
  fold_left nextWord h w.

(** The threshold: raised by 0.01 by every accepted word. *)
Definition nextThreshold (t : float) (a : GameAttempt) : float :=
  if success a then (t + 0.01)%float else t.

Definition endThreshold (t : float) (h : list GameAttempt) : float :=
  fold_left nextThreshold h t.

Definition successes (h : list GameAttempt) : nat :=
  List.length (filter success h).

(** The score: an accepted word adds its points, a failure or a timeout
    takes its 1000 points off, never below 0. *)
Definition nextScore (s : Z) (a : GameAttempt) : Z :=
  if success a then s + points a else Z.max 0 (s + points a).

Definition replay (h : list GameAttempt) : Z :=
  fold_left nextScore h 0.

(** The failures and timeouts since the last accepted word. *)
Fixpoint failuresFirst (reversed : list GameAttempt) : nat :=
  match reversed with
  | [] => 0
  | a :: older => if success a then 0 else Datatypes.S (failuresFirst older)
  end.

Definition failuresAtEnd (h : list GameAttempt) : nat :=
  failuresFirst (rev h).

(** What every recorded attempt satisfies, in a session started from the
    word [start]. *)
Definition recorded (start : string) (a : GameAttempt) : Prop :=
  (-1 <=? similarity a)%float = true
  /\ (similarity a <=? 1)%float = true
  /\ (success a = true ->
      (requiredThreshold a <=? similarity a)%float = true
      /\ newWord a <> start
      /\ 0 <= points a)
  /\ (success a = false ->
      points a = -1000
      /\ ((requiredThreshold a <=? similarity a)%float = false
          \/ newWord a = timeoutMarker /\ similarity a = 0%float)).

Record Ledger (m : Machine) : Prop := mkLedger {
  led_difficulty :
    gameState (app m) <> SELECTING_DIFFICULTY \/ call m = RandomWordCall ->
    exists c d,
      selected c = Some d
      /\ difficulty (app m) = Some d
      /\ currentThreshold (app m)
         = endThreshold (threshold d) (history (app m));
  led_required :
    forall d, difficulty (app m) = Some d ->
              traced nextThreshold requiredThreshold (threshold d)
                     (history (app m));
  led_score : score (app m) = replay (history (app m));
  led_lives :
    gameState (app m) <> SELECTING_DIFFICULTY ->
    lives (app m) = 3 - Z.of_nat (failuresAtEnd (history (app m)));
  led_word :
    gameState (app m) <> SELECTING_DIFFICULTY ->
    currentWord (app m) = endWord (startingWord m) (history (app m));
  led_chain :
    traced nextWord previousWord (startingWord m) (history (app m));
  led_recorded :
    Forall (recorded (startingWord m)) (history (app m));
  led_pending :
    forall k, call m = SimilarityCall k -> cl_newWord k <> firstWordOf (app m)
}.

(** ** One more session *)

(** An accepted word, a rejected one, a round that times out, and a second
    accepted word. *)
Definition played : list Event :=
  ([ SelectDifficulty (Level 1);
     RandomWordSettled (Fulfilled "바다");
     SubmitWord "파도"; SimilaritySettled (Fulfilled 0.65%float);
     SubmitWord "책상"; SimilaritySettled (Fulfilled 0.2%float) ]
     ++ repeat IntervalTick 30
     ++ [ SubmitWord "해변"; SimilaritySettled (Fulfilled 0.9%float) ])%list.

(** ** The leaderboard, sorted *)

(** The entries that beat a score. *)
Definition higher (s : Z) (lb : list Leaderboard.LeaderboardEntry) : nat :=
  List.length (filter (fun e => s <? Leaderboard.score e) lb).

(** ** geminiService.ts: cleaning the starting word

    Here a string is the sequence of its UTF-16 code units, which is what
    [replace] and [trim] work on.  [trim] strips the code points of
    WhiteSpace and LineTerminator from both ends. *)

Module Words.

Definition isWhiteSpace (c : N) : bool :=
  existsb (N.eqb c)
          [9; 10; 11; 12; 13; 32; 160; 5760; 8232; 8233; 8239; 8287;
           12288; 65279]%N
  || ((8192 <=? c)%N && (c <=? 8202)%N).

Fixpoint trimStart (s : list N) : list N :=
  match s with
  | [] => []
  | c :: s' => if isWhiteSpace c then trimStart s' else s
  end.

Definition trimEnd (s : list N) : list N := rev (trimStart (rev s)).

Definition trim (s : list N) : list N := trimEnd (trimStart s).

(** The class of the regular expression that [replace] removes: double
    quote, single quote, full stop. *)
Definition isQuoteOrDot (c : N) : bool :=
  ((c =? 34) || (c =? 39) || (c =? 46))%N.

(** The end of [generateGeminiContent]: a reply that is empty after
    trimming is an error, any other reply is returned trimmed. *)
Definition generateGeminiContent (text : list N) : option (list N) :=
  if (List.length (trim text) =? 0)%nat then None else Some (trim text).

(** [getRandomKoreanWord]: remove every character of that class, then
    [trim]. *)
Definition getRandomKoreanWord (word : list N) : list N :=
  trim (filter (fun c => negb (isQuoteOrDot c)) word).

End Words.

(** ** soundService.ts: the background music

    The module-level variables that decide whether and what music plays.
    [ctx] says whether [getAudioContext()] yields a context (with its gain
    node) during a call, and [timer] is the id that [window.setTimeout]
    hands out; the tones themselves are not modelled.  [track] is the
    melody captured by the running [playLoop]; it means something only
    while [musicLoopTimeoutId] is set.  Every call is taken to return: the
    write of [isMuted] to [localStorage] in [toggleMute] is taken to
    succeed. *)

Module Sound.

Inductive Track : Type := Normal | Urgent | Critical.

Record State : Type := mkState {
  isMuted : bool;
  musicLoopTimeoutId : option N;
  currentLives : Z;
  track : Track
}.

(** Module load: [isMuted] comes from [localStorage]. *)
Definition loaded (muted : bool) : State := mkState muted None 3 Normal.

(** The [switch (lives)] of [playBackgroundMusic]. *)
Definition trackFor (lives : Z) : Track :=
  if lives =? 1 then Critical
  else if lives =? 2 then Urgent
  else Normal.

Definition playBackgroundMusic (lives : Z) (ctx : bool) (timer : N)
           (s : State) : State :=
  match musicLoopTimeoutId s with
  | Some _ => s
  | None =>
      if isMuted s then s
      else
        let s := mkState (isMuted s) (musicLoopTimeoutId s) lives (track s) in
        if negb ctx then s
        else mkState (isMuted s) (Some timer) (currentLives s)
                     (trackFor lives)
  end.

Definition stopBackgroundMusic (s : State) : State :=
  mkState (isMuted s) None (currentLives s) (track s).

Definition updateBackgroundMusic (lives : Z) (ctx : bool) (timer : N)
           (s : State) : State :=
  let newLivesState := Z.max 1 (Z.min 3 lives) in
  match musicLoopTimeoutId s with
  | None => s
  | Some _ =>
      if newLivesState =? currentLives s then s
      else playBackgroundMusic newLivesState ctx timer
                               (stopBackgroundMusic s)
  end.

(** [toggleMute]: the new state and the returned flag. *)
Definition toggleMute (s : State) : State * bool :=
  let s := mkState (negb (isMuted s)) (musicLoopTimeoutId s)
                   (currentLives s) (track s) in
  (if isMuted s then stopBackgroundMusic s else s, isMuted s).

(** The timeout of a running loop fires: [playLoop] runs again and, if
    there still is a context, plays the same melody and re-arms itself. *)
Definition playLoop (ctx : bool) (timer : N) (s : State) : State :=
  if negb ctx then s
  else mkState (isMuted s) (Some timer) (currentLives s) (track s).

(** Music plays only unmuted, and what plays is the melody of
    [currentLives]. *)
Definition tuned (s : State) : Prop :=
  (isMuted s = true -> musicLoopTimeoutId s = None)
  /\ (musicLoopTimeoutId s <> None -> track s = trackFor (currentLives s)).

(** The calls that the exports allow, in any order. *)
Inductive Call : Type :=
| ToggleMute
| Play (lives : Z) (ctx : bool) (timer : N)
| Stop
| Update (lives : Z) (ctx : bool) (timer : N)
| LoopFired (ctx : bool) (timer : N).



End Sound.

(** ** App with its sound calls

    The handlers call the sound service directly, and the effect
    [useEffect(() => updateBackgroundMusic(lives), [lives])] runs after a
    render in which [lives] changed.  [handleToggleMute] is the one
    handler that touches nothing but the sound. *)

Module Audible.

Record Machine : Type := mkMachine {
  session : Session.Machine;
  sound : Sound.State
}.

Inductive Event : Type :=
| Game (ev : Session.Event) (ctx : bool) (timer : N)
| ToggleMute (ctx : bool) (timer : N)
| LoopFired (ctx : bool) (timer : N).

(** The sound calls inside the handler that [ev] runs, given the state
    [st] it runs on. *)
Definition handlerSound (st : App.State) (call : Session.Call)
           (ev : Session.Event) (ctx : bool) (timer : N)
           (s : Sound.State) : Sound.State :=
  match ev with
  | SelectDifficulty _ => s
  | RandomWordSettled (Fulfilled _) =>
      Sound.playBackgroundMusic 3 ctx timer s
  | RandomWordSettled (Rejected _) => s
  | IntervalTick =>
      if timeLeft st <=? 1
      then if lives st - 1 <=? 0 then Sound.stopBackgroundMusic s else s
      else s
  | SubmitWord _ => s
  | SimilaritySettled parsed =>
      match call, calculateSimilarity parsed with
      | SimilarityCall k, Fulfilled sim =>
          if (cl_currentThreshold k <=? sim)%float then s
          else if cl_lives k - 1 <=? 0
               then Sound.stopBackgroundMusic s else s
      | _, _ => s
      end
  | Restart => Sound.stopBackgroundMusic s
  end.

(** The effect on [lives]. *)
Definition livesEffect (before after : App.State) (ctx : bool) (timer : N)
           (s : Sound.State) : Sound.State :=
  if lives after =? lives before then s
  else Sound.updateBackgroundMusic (lives after) ctx timer s.

Definition handleToggleMute (st : App.State) (ctx : bool) (timer : N)
           (s : Sound.State) : Sound.State :=
  let (s', newMutedState) := Sound.toggleMute s in
  if negb newMutedState && GameState_eqb (gameState st) PLAYING
  then Sound.playBackgroundMusic (lives st) ctx timer s'
  else s'.

Definition step (m : Machine) (ev : Event) : option Machine :=
  match ev with
  | Game e ctx timer =>
      match Session.step (session m) e with
      | Some m' =>
          let st := app (session m) in
          let s1 := handlerSound st (call (session m)) e ctx timer (sound m) in
          Some (mkMachine m' (livesEffect st (app m') ctx timer s1))
      | None => None
      end
  | ToggleMute ctx timer =>
      Some (mkMachine (session m)
                      (handleToggleMute (app (session m)) ctx timer (sound m)))
  | LoopFired ctx timer =>
      match Sound.musicLoopTimeoutId (sound m) with
      | Some _ => Some (mkMachine (session m)
                                  (Sound.playLoop ctx timer (sound m)))
      | None => None
      end
  end.

Fixpoint run (m : Machine) (evs : list Event) : option Machine :=
  match evs with
  | [] => Some m
  | ev :: evs' =>
      match step m ev with
      | Some m' => run m' evs'
      | None => None
      end
  end.

Definition mounted (muted : bool) : Machine :=
  mkMachine Session.mounted (Sound.loaded muted).

Definition reachable (m : Machine) : Prop :=
  exists muted evs, run (mounted muted) evs = Some m.



Definition after (muted : bool) (evs : list Event) : Machine :=
  match run (mounted muted) evs with
  | Some m => m
  | None => mounted muted
  end.

End Audible.

(** ** GameOverScreen: the local record and its registration

    The part of the screen that reads the player's record from
    [localStorage], offers the name form when the session beat it, and
    stores the new record once [submitScore] succeeded.  Strings that are
    trimmed, parsed or stored are sequences of UTF-16 code units; a number
    that may be [NaN] is an [option Z] with [None] for [NaN], and the
    scores are integers that JavaScript's numbers hold exactly.
    [localStorage.getItem] is taken to return; [localStorage.setItem] may
    throw, which inside [handleNameSubmit] ends in its [catch]. *)

Module HighScore.
Import Leaderboard.

(** [String(n)] for an integer [n], in code units. *)
Fixpoint codeUnits (u : Decimal.uint) : list N :=
  match u with
  | Decimal.Nil => []
  | Decimal.D0 u => 48%N :: codeUnits u
  | Decimal.D1 u => 49%N :: codeUnits u
  | Decimal.D2 u => 50%N :: codeUnits u
  | Decimal.D3 u => 51%N :: codeUnits u
  | Decimal.D4 u => 52%N :: codeUnits u
  | Decimal.D5 u => 53%N :: codeUnits u
  | Decimal.D6 u => 54%N :: codeUnits u
  | Decimal.D7 u => 55%N :: codeUnits u
  | Decimal.D8 u => 56%N :: codeUnits u
  | Decimal.D9 u => 57%N :: codeUnits u
  end.

Definition String_ (n : Z) : list N :=
  match Z.to_int n with
  | Decimal.Pos u => codeUnits u
  | Decimal.Neg u => 45%N :: codeUnits u
  end.

(** [parseInt(s, 10)]: leading white space is skipped, a sign is read,
    and the digits up to the first other character are the number;
    without a digit the result is [NaN]. *)
Definition digit (c : N) : option (Decimal.uint -> Decimal.uint) :=
  if (c =? 48)%N then Some Decimal.D0
  else if (c =? 49)%N then Some Decimal.D1
  else if (c =? 50)%N then Some Decimal.D2
  else if (c =? 51)%N then Some Decimal.D3
  else if (c =? 52)%N then Some Decimal.D4
  else if (c =? 53)%N then Some Decimal.D5
  else if (c =? 54)%N then Some Decimal.D6
  else if (c =? 55)%N then Some Decimal.D7
  else if (c =? 56)%N then Some Decimal.D8
  else if (c =? 57)%N then Some Decimal.D9
  else None.

Fixpoint digits (s : list N) : Decimal.uint :=
  match s with
  | [] => Decimal.Nil
  | c :: s' =>
      match digit c with
      | Some d => d (digits s')
      | None => Decimal.Nil
      end
  end.

Definition parseInt (s : list N) : option Z :=
  let s := Words.trimStart s in
  let signed :=
    match s with
    | c :: s' =>
        if (c =? 45)%N then (true, s')
        else if (c =? 43)%N then (false, s')
        else (false, s)
    | [] => (false, s)
    end in
  match digits (snd signed) with
  | Decimal.Nil => None
  | u => Some (if fst signed then - Z.of_uint u else Z.of_uint u)
  end.

(** [score > savedScore] and [localHighScore > 0], false on [NaN]. *)
Definition gt (a : Z) (b : option Z) : bool :=
  match b with
  | Some b => a >? b
  | None => false
  end.

Record Storage : Type := mkStorage {
  localHighScoreItem : option (list N);
  localPlayerNameItem : option (list N)
}.

(** [localStorage.getItem(key) || fallback]: the fallback also replaces an
    empty string. *)
Definition getItemOr (item : option (list N)) (fallback : list N)
  : list N :=
  match item with
  | Some (c :: s) => c :: s
  | _ => fallback
  end.

Definition anonymous : list N :=
  [51061; 47749; 51032; 32; 54540; 47112; 51060; 50612]%N.

Definition savedScore (store : Storage) : option Z :=
  parseInt (getItemOr (localHighScoreItem store) [48%N]).

Definition savedName (store : Storage) : list N :=
  getItemOr (localPlayerNameItem store) anonymous.

(** [calculateRank] with a [scoreToRank] that may be [NaN]: every
    comparison with [NaN] is false, so only the rule for a board of fewer
    than three entries is left. *)
Definition calculateRankOf (scoreToRank : option Z)
           (currentLeaderboard : list LeaderboardEntry) : option Z :=
  match scoreToRank with
  | Some s => calculateRank s currentLeaderboard
  | None =>
      if Z.of_nat (List.length currentLeaderboard) <? 3
      then Some (Z.of_nat (List.length currentLeaderboard) + 1)
      else None
  end.

Definition loadFailed : string :=
  "리더보드를 불러오는 데 실패했습니다. 잠시 후 다시 시도해 주세요.".
Definition nameRequired : string := "이름을 입력해주세요.".
Definition submitFailed : string :=
  "점수 제출에 실패했습니다. 다시 시도해주세요.".

(** One field per [useState] cell of this part of the screen. *)
Record State : Type := mkState {
  leaderboard : option (list LeaderboardEntry);
  isLoadingLeaderboard : bool;
  localHighScore : option Z;
  localPlayerName : list N;
  playerRank : option Z;
  isNewLocalHighScore : bool;
  playerName : list N;
  isSubmitting : bool;
  submissionComplete : bool;
  error : option string
}.

Definition initial : State :=
  mkState None true (Some 0) [] None false [] false false None.

Definition setLeaderboard (v : option (list LeaderboardEntry)) (st : State) :=
  mkState v (isLoadingLeaderboard st) (localHighScore st)
          (localPlayerName st) (playerRank st) (isNewLocalHighScore st)
          (playerName st) (isSubmitting st) (submissionComplete st)
          (error st).
Definition setIsLoadingLeaderboard (v : bool) (st : State) :=
  mkState (leaderboard st) v (localHighScore st)
          (localPlayerName st) (playerRank st) (isNewLocalHighScore st)
          (playerName st) (isSubmitting st) (submissionComplete st)
          (error st).
Definition setLocalHighScore (v : option Z) (st : State) :=
  mkState (leaderboard st) (isLoadingLeaderboard st) v
          (localPlayerName st) (playerRank st) (isNewLocalHighScore st)
          (playerName st) (isSubmitting st) (submissionComplete st)
          (error st).
Definition setLocalPlayerName (v : list N) (st : State) :=
  mkState (leaderboard st) (isLoadingLeaderboard st) (localHighScore st)
          v (playerRank st) (isNewLocalHighScore st)
          (playerName st) (isSubmitting st) (submissionComplete st)
          (error st).
Definition setPlayerRank (v : option Z) (st : State) :=
  mkState (leaderboard st) (isLoadingLeaderboard st) (localHighScore st)
          (localPlayerName st) v (isNewLocalHighScore st)
          (playerName st) (isSubmitting st) (submissionComplete st)
          (error st).
Definition setIsNewLocalHighScore (v : bool) (st : State) :=
  mkState (leaderboard st) (isLoadingLeaderboard st) (localHighScore st)
          (localPlayerName st) (playerRank st) v
          (playerName st) (isSubmitting st) (submissionComplete st)
          (error st).
Definition setPlayerName (v : list N) (st : State) :=
  mkState (leaderboard st) (isLoadingLeaderboard st) (localHighScore st)
          (localPlayerName st) (playerRank st) (isNewLocalHighScore st)
          v (isSubmitting st) (submissionComplete st)
          (error st).
Definition setIsSubmitting (v : bool) (st : State) :=
  mkState (leaderboard st) (isLoadingLeaderboard st) (localHighScore st)
          (localPlayerName st) (playerRank st) (isNewLocalHighScore st)
          (playerName st) v (submissionComplete st)
          (error st).
Definition setSubmissionComplete (v : bool) (st : State) :=
  mkState (leaderboard st) (isLoadingLeaderboard st) (localHighScore st)
          (localPlayerName st) (playerRank st) (isNewLocalHighScore st)
          (playerName st) (isSubmitting st) v
          (error st).
Definition setError (v : option string) (st : State) :=
  mkState (leaderboard st) (isLoadingLeaderboard st) (localHighScore st)
          (localPlayerName st) (playerRank st) (isNewLocalHighScore st)
          (playerName st) (isSubmitting st) (submissionComplete st)
          v.

(** [fetchLeaderboardAndRank], split at its [await]. *)
Definition fetchLeaderboardAndRank_begin (st : State) : State :=
  st |> setIsLoadingLeaderboard true |> setError None.

Definition fetchLeaderboardAndRank_resume (scoreToRank : option Z)
           (data : Settled (list LeaderboardEntry)) (st : State) : State :=
  match data with
  | Fulfilled data =>
      st |> setLeaderboard (Some data)
         |> setPlayerRank (calculateRankOf scoreToRank data)
  | Rejected _ =>
      st |> setError (Some loadFailed)
         |> setLeaderboard (Some [])
  end |> setIsLoadingLeaderboard false.

(** The mount effect, up to the [await] inside the
    [fetchLeaderboardAndRank(savedScore)] that it starts. *)
Definition mountEffect (score : Z) (store : Storage) (st : State) : State :=
  let st := st |> setLocalHighScore (savedScore store)
               |> setLocalPlayerName (savedName store) in
  let st := if gt score (savedScore store)
            then st |> setIsNewLocalHighScore true
            else st in
  fetchLeaderboardAndRank_begin st.

(** [handleNameSubmit], split at its two [await]s.  [name] is the
    [playerName.trim()] of the render the handler belongs to. *)
Definition handleNameSubmit_begin (st : State) : State * option (list N) :=
  match Words.trim (playerName st) with
  | [] => (st |> setError (Some nameRequired), None)
  | name => (st |> setIsSubmitting true |> setError None, Some name)
  end.

(** What the two [localStorage.setItem] calls of [handleNameSubmit] do:
    both return, or the first throws, or the second throws after the
    first has written the score. *)
Inductive Writes : Type :=
| BothWritten
| FirstThrows
| SecondThrows.

(** After [await submitScore]: the rest of the [try] block up to the next
    [await], or the [catch] and the [finally].  The flag says whether the
    handler goes on to await the refreshed leaderboard. *)
Definition handleNameSubmit_submitted (score : Z) (name : list N)
           (outcome : Settled unit) (writes : Writes)
           (store : Storage) (st : State)
  : State * Storage * bool :=
  match outcome with
  | Fulfilled _ =>
      match writes with
      | BothWritten =>
          (st |> setLocalHighScore (Some score)
              |> setLocalPlayerName name
              |> setSubmissionComplete true
              |> fetchLeaderboardAndRank_begin,
           mkStorage (Some (String_ score)) (Some name),
           true)
      | FirstThrows =>
          (st |> setError (Some submitFailed) |> setIsSubmitting false,
           store, false)
      | SecondThrows =>
          (st |> setError (Some submitFailed) |> setIsSubmitting false,
           mkStorage (Some (String_ score)) (localPlayerNameItem store),
           false)
      end
  | Rejected _ =>
      (st |> setError (Some submitFailed) |> setIsSubmitting false,
       store, false)
  end.

Definition handleNameSubmit_refreshed (score : Z)
           (data : Settled (list LeaderboardEntry)) (st : State) : State :=
  st |> fetchLeaderboardAndRank_resume (Some score) data
     |> setIsSubmitting false.

(** What the render offers. *)
Definition formOffered (st : State) : bool :=
  isNewLocalHighScore st && negb (submissionComplete st).


(** The screen with its storage, the stage of its mount effect (not yet
    run after the first render, its [fetchLeaderboardAndRank] outstanding
    with its [scoreToRank], or settled) and the stage of
    [handleNameSubmit]. *)
Inductive Mount : Type :=
| Committed
| Fetching (scoreToRank : option Z)
| Fetched.

Inductive Submission : Type :=
| Idle
| Submitting (name : list N)
| Refreshing.

Record Machine : Type := mkMachine {
  screen : State;
  storage : Storage;
  mount : Mount;
  submission : Submission
}.

Inductive Event : Type :=
| MountEffect
| TypeName (value : list N)
| SubmitName
| SubmitSettled (outcome : Settled unit) (writes : Writes)
| MountFetchSettled (data : Settled (list LeaderboardEntry))
| RefreshSettled (data : Settled (list LeaderboardEntry)).

(** The first render that React commits: every cell holds its [useState]
    default and the mount effect has not run yet. *)
Definition firstRender (store : Storage) : Machine :=
  mkMachine initial store Committed Idle.

(** The screen once its mount effect has run on the first render. *)
Definition mounted (score : Z) (store : Storage) : Machine :=
  mkMachine (mountEffect score store initial) store
            (Fetching (savedScore store)) Idle.

(** The mount effect runs once: its dependency [history] does not change
    while the game is over.  The input and the button are disabled while
    [isSubmitting]. *)
Definition step (score : Z) (m : Machine) (ev : Event) : option Machine :=
  let st := screen m in
  match ev with
  | MountEffect =>
      match mount m with
      | Committed =>
          Some (mkMachine (mountEffect score (storage m) st) (storage m)
                          (Fetching (savedScore (storage m)))
                          (submission m))
      | _ => None
      end
  | TypeName value =>
      if formOffered st && negb (isSubmitting st)
      then Some (mkMachine (st |> setPlayerName value) (storage m)
                           (mount m) (submission m))
      else None
  | SubmitName =>
      if formOffered st && negb (isSubmitting st)
      then match handleNameSubmit_begin st with
           | (st', Some name) =>
               Some (mkMachine st' (storage m) (mount m)
                               (Submitting name))
           | (st', None) =>
               Some (mkMachine st' (storage m) (mount m)
                               (submission m))
           end
      else None
  | SubmitSettled outcome writes =>
      match submission m with
      | Submitting name =>
          let '(st', store', refresh) :=
            handleNameSubmit_submitted score name outcome writes
                                       (storage m) st in
          Some (mkMachine st' store' (mount m)
                          (if refresh then Refreshing else Idle))
      | _ => None
      end
  | MountFetchSettled data =>
      match mount m with
      | Fetching scoreToRank =>
          Some (mkMachine (fetchLeaderboardAndRank_resume scoreToRank data st)
                          (storage m) Fetched (submission m))
      | _ => None
      end
  | RefreshSettled data =>
      match submission m with
      | Refreshing =>
          Some (mkMachine (handleNameSubmit_refreshed score data st)
                          (storage m) (mount m) Idle)
      | _ => None
      end
  end.

Fixpoint run (score : Z) (m : Machine) (evs : list Event) : option Machine :=
  match evs with
  | [] => Some m
  | ev :: evs' =>
      match step score m ev with
      | Some m' => run score m' evs'
      | None => None
      end
  end.

(** The [submitScore] calls of a trace that succeed, and those of them
    after which a write to [localStorage] fails. *)
Definition isRegistration (ev : Event) : bool :=
  match ev with
  | SubmitSettled (Fulfilled _) _ => true
  | _ => false
  end.

Definition isFailedWrite (ev : Event) : bool :=
  match ev with
  | SubmitSettled (Fulfilled _) FirstThrows => true
  | SubmitSettled (Fulfilled _) SecondThrows => true
  | _ => false
  end.

Definition registrations (evs : list Event) : nat :=
  List.length (filter isRegistration evs).

Definition failedWrites (evs : list Event) : nat :=
  List.length (filter isFailedWrite evs).

Definition reachable (score : Z) (store : Storage) (m : Machine) : Prop :=
  exists evs, run score (firstRender store) evs = Some m.

(** A record of 1200 under the name [Kim] is beaten with 3400 by a
    player who types [ Lee ] and registers at the second try. *)
Definition before : Storage :=
  mkStorage (Some [49; 50; 48; 48]%N) (Some [75; 105; 109]%N).

Definition registration : list Event :=
  [ MountEffect;
    TypeName [32; 76; 101; 101; 32]%N;
    SubmitName;
    MountFetchSettled (Fulfilled [mkEntry "Kim" 1200]);
    SubmitSettled (Rejected "x") BothWritten;
    SubmitName;
    SubmitSettled (Fulfilled tt) BothWritten;
    RefreshSettled (Fulfilled [mkEntry "Lee" 3400; mkEntry "Kim" 1200]) ].

(** The same player, with a storage that refuses the name at the first
    try: [submitScore] succeeds twice. *)
Definition registeredTwice : list Event :=
  [ MountEffect;
    TypeName [76; 101; 101]%N;
    SubmitName;
    SubmitSettled (Fulfilled tt) SecondThrows;
    SubmitName;
    SubmitSettled (Fulfilled tt) BothWritten ].

Definition after (score : Z) (store : Storage) (evs : list Event)
  : Machine :=
  match run score (firstRender store) evs with
  | Some m => m
  | None => firstRender store
  end.

(** What holds of the screen, its storage and its calls in every state
    it can reach. *)
Record Registered (score : Z) (store : Storage) (m : Machine)
  : Prop := mkRegistered {
  reg_first :
    mount m = Committed ->
    screen m = initial /\ storage m = store /\ submission m = Idle;
  reg_new :
    mount m <> Committed ->
    isNewLocalHighScore (screen m) = gt score (savedScore store);
  reg_before :
    mount m <> Committed ->
    submissionComplete (screen m) = false ->
    localHighScore (screen m) = savedScore store
    /\ localPlayerName (screen m) = savedName store;
  reg_storage :
    storage m = store
    \/ (gt score (savedScore store) = true
        /\ localHighScoreItem (storage m) = Some (String_ score));
  reg_after :
    submissionComplete (screen m) = true ->
    isNewLocalHighScore (screen m) = true
    /\ localHighScore (screen m) = Some score
    /\ localPlayerName (screen m) <> []
    /\ Words.trim (localPlayerName (screen m)) = localPlayerName (screen m)
    /\ storage m = mkStorage (Some (String_ score))
                             (Some (localPlayerName (screen m)));
  reg_call :
    match submission m with
    | Idle => isSubmitting (screen m) = false
    | Submitting name =>
        mount m <> Committed
        /\ isSubmitting (screen m) = true
        /\ submissionComplete (screen m) = false
        /\ isNewLocalHighScore (screen m) = true
        /\ name <> [] /\ Words.trim name = name
    | Refreshing =>
        isSubmitting (screen m) = true
        /\ submissionComplete (screen m) = true
    end
}.

End HighScore.

(** ** geminiService.ts: the number in the oracle's reply

    [text.match] with the pattern of [calculateSimilarity]: an optional
    minus sign, one or more digits and, optionally, a dot with one or more
    digits.  The match is the leftmost one, every repetition takes as much
    as it can, and the minus sign and the fraction are given up when the
    digits they need do not follow.  Text is a sequence of UTF-16 code
    units. *)

Module Reply.

Definition isDigit (c : N) : bool := ((48 <=? c) && (c <=? 57))%N.

(** The digits at the head of [s]. *)
Fixpoint digitRun (s : list N) : list N :=
  match s with
  | c :: s' => if isDigit c then c :: digitRun s' else []
  | [] => []
  end.

(** What follows the digits at the head of [s]. *)
Fixpoint afterDigits (s : list N) : list N :=
  match s with
  | c :: s' => if isDigit c then afterDigits s' else s
  | [] => []
  end.

(** The optional fraction at the head of [s]. *)
Definition fraction (s : list N) : list N :=
  match s with
  | c :: s' =>
      if (c =? 46)%N
      then match digitRun s' with
           | [] => []
           | ds => c :: ds
           end
      else []
  | [] => []
  end.

(** Digits and optional fraction, for an [s] that starts with a digit. *)
Definition unsignedAt (s : list N) : list N :=
  (digitRun s ++ fraction (afterDigits s))%list.

Definition startsWithDigit (s : list N) : bool :=
  match s with
  | c :: _ => isDigit c
  | [] => false
  end.

(** The pattern tried at the head of [s]. *)
Definition matchAt (s : list N) : option (list N) :=
  match s with
  | c :: s' =>
      if (c =? 45)%N && startsWithDigit s' then Some (c :: unsignedAt s')
      else if isDigit c then Some (unsignedAt s)
      else None
  | [] => None
  end.

(** [numberMatch[0]], or [None] for [null]. *)
Fixpoint numberMatch (text : list N) : option (list N) :=
  match matchAt text with
  | Some m => Some m
  | None =>
      match text with
      | _ :: text' => numberMatch text'
      | [] => None
      end
  end.



End Reply.

(** * Properties *)

(** ** Rank evaluator *)

Section RankEvaluator.
Import Leaderboard.

Lemma scan_firstIndex (s : Z) (l : list LeaderboardEntry) :
  forall i,
    scan s i l =
    option_map (fun n => i + 1 + Z.of_nat n)
               (firstIndex (fun e => s >=? score e) l).
Proof.
  induction l as [|e l IH]; intro i; simpl; [reflexivity|].
  rewrite Z.gtb_ltb, Z.geb_leb.
  destruct (Z.ltb_spec (score e) s) as [Hlt|Hge].
  - replace (score e <=? s) with true by (symmetry; apply Z.leb_le; lia).
    simpl. f_equal. lia.
  - destruct (Z.eqb_spec s (score e)) as [Heq|Hne].
    + replace (score e <=? s) with true by (symmetry; apply Z.leb_le; lia).
      simpl. f_equal. lia.
    + replace (score e <=? s) with false by (symmetry; apply Z.leb_gt; lia).
      rewrite IH.
      destruct (firstIndex _ l) as [n|]; simpl; [f_equal; lia | reflexivity].
Qed.

Lemma firstIndex_none (p : LeaderboardEntry -> bool)
      (l : list LeaderboardEntry) :
  (forall e, In e l -> p e = false) -> firstIndex p l = None.
Proof.
  induction l as [|e l IH]; intro H; simpl; [reflexivity|].
  rewrite (H e (or_introl eq_refl)), IH; [reflexivity|].
  intros e' He'. apply H. now right.
Qed.

Lemma calculateRank_refines (candidateScore : Z)
      (leaderboard : list LeaderboardEntry) :
  calculateRank candidateScore leaderboard
  = rankContract candidateScore leaderboard.
Proof.
  unfold calculateRank, rankContract.
  destruct (candidateScore <=? 0); [reflexivity|].
  rewrite scan_firstIndex.
  destruct (firstIndex _ leaderboard) as [n|]; simpl.
  - f_equal; lia.
  - destruct (Nat.ltb_spec (List.length leaderboard) 3) as [H|H].
    + replace (Z.of_nat (List.length leaderboard) <? 3) with true
        by (symmetry; apply Z.ltb_lt; lia).
      reflexivity.
    + replace (Z.of_nat (List.length leaderboard) <? 3) with false
        by (symmetry; apply Z.ltb_ge; lia).
      reflexivity.
Qed.

(** C2, as stated, at a tie with the last of three entries: all three
    scores are [>= 50], yet the candidate score 50 is ranked third. *)
Lemma C2_tie_counterexample :
  ~ (forall leaderboard,
        List.length leaderboard = 3%nat ->
        (forall e, In e leaderboard -> score e >= 50) ->
        calculateRank 50 leaderboard = None).
Proof.
  intro H.
  specialize (H [mkEntry "a" 500; mkEntry "b" 300; mkEntry "c" 50]
                eq_refl).
  assert (Hall : forall e,
             In e [mkEntry "a" 500; mkEntry "b" 300; mkEntry "c" 50] ->
             score e >= 50).
  { intros e [<-|[<-|[<-|[]]]]; simpl; lia. }
  specialize (H Hall). vm_compute in H. discriminate H.
Qed.

(** C2 (amended).  [calculateRank] meets the contract of the rank
    evaluator: [None] for a candidate score [<= 0]; otherwise one plus
    the index of the first entry, in order, that the candidate score
    reaches (a tie takes the incumbent's rank); otherwise [length + 1]
    when fewer than three entries are listed; otherwise [None].  Score 0
    gives [None]; 300 against 500, 300, 100 gives rank 2; 50 against two
    entries gives rank 3; and a positive score against three or more
    entries that are all strictly larger gives [None]. *)
Theorem C2_calculateRank_contract :
  (forall candidateScore leaderboard,
      calculateRank candidateScore leaderboard
      = rankContract candidateScore leaderboard)
  /\ (forall leaderboard, calculateRank 0 leaderboard = None)
  /\ calculateRank 300 [mkEntry "a" 500; mkEntry "b" 300; mkEntry "c" 100]
     = Some 2
  /\ calculateRank 50 [mkEntry "a" 500; mkEntry "b" 300] = Some 3
  /\ (forall candidateScore leaderboard,
        0 < candidateScore ->
        (3 <= List.length leaderboard)%nat ->
        (forall e, In e leaderboard -> candidateScore < score e) ->
        calculateRank candidateScore leaderboard = None).
Proof.
  split; [exact calculateRank_refines|].
  repeat split; try reflexivity.
  intros s lb Hpos Hlen Hall.
  rewrite calculateRank_refines. unfold rankContract.
  replace (s <=? 0) with false by (symmetry; apply Z.leb_gt; lia).
  rewrite firstIndex_none.
  - destruct (Nat.ltb_spec (List.length lb) 3); [lia | reflexivity].
  - intros e He. rewrite Z.geb_leb. apply Z.leb_gt. now apply Hall.
Qed.

Lemma C2_calculateRank_contract_witness :
  calculateRank 50 [mkEntry "a" 500; mkEntry "b" 300; mkEntry "c" 100]
  = None.
Proof.
  apply (proj2 (proj2 (proj2 (proj2 C2_calculateRank_contract)))).
  - lia.
  - simpl. lia.
  - intros e [<-|[<-|[<-|[]]]]; simpl; lia.
Defined.

End RankEvaluator.

(** ** Handlers, one call at a time *)

(** Reduction of record projections, and of handlers down to record
    projections.  The setters are unfolded together with the projections:
    unfolding a chain of setters on its own copies the state once per
    field at every link. *)
Ltac fields :=
  cbn [app call startingWord
       gameState difficulty currentThreshold score currentWord history
       lives isLoading error timeLeft
       cl_newWord cl_currentWord cl_difficulty cl_currentThreshold
       cl_history cl_lives
       previousWord newWord similarity success requiredThreshold points]
    in *.

Ltac unfold_handlers :=
  cbn [handleTimeout intervalCallback handleSelectDifficulty_begin
       handleSelectDifficulty_resume handleSubmitWord_resume handleRestart
       updScore updHistory updCurrentThreshold
       setGameState setDifficulty setCurrentThreshold setScore
       setCurrentWord setHistory setLives setIsLoading setError setTimeLeft
       app call startingWord
       gameState difficulty currentThreshold score currentWord history
       lives isLoading error timeLeft
       cl_newWord cl_currentWord cl_difficulty cl_currentThreshold
       cl_history cl_lives
       previousWord newWord similarity success requiredThreshold points]
    in *.

(** What a submission that reaches the oracle leaves behind: the state
    with the loading flag raised and the error cleared, and a closure that
    holds the values of the state it started from. *)
Lemma handleSubmitWord_begin_awaiting (w : string) (st st1 : State)
      (k : Closure) :
  handleSubmitWord_begin w st = Awaiting st1 k ->
  st1 = setError None (setIsLoading true st)
  /\ difficulty st = Some (cl_difficulty k)
  /\ currentWord st <> EmptyString
  /\ has (allPreviouslyUsedWords st) w = false
  /\ k = mkClosure w (currentWord st) (cl_difficulty k)
                   (currentThreshold st) (history st) (lives st).
Proof.
  unfold handleSubmitWord_begin.
  destruct (difficulty st) as [d|]; [|discriminate].
  destruct (String.eqb_spec (currentWord st) EmptyString) as [|Hne];
    [discriminate|].
  destruct (has (allPreviouslyUsedWords st) w); [discriminate|].
  intro H. injection H as <- <-. fields. repeat split; auto.
Qed.

(** What a submission that returns early leaves behind: at most a new
    error message. *)
Lemma handleSubmitWord_begin_returned (w : string) (st st' : State) :
  handleSubmitWord_begin w st = Returned st' ->
  st' = st \/ st' = setError (Some usedWordError) st.
Proof.
  unfold handleSubmitWord_begin.
  destruct (difficulty st) as [d|]; [|intro H; injection H as <-; now left].
  destruct (currentWord st =? EmptyString)%string;
    [intro H; injection H as <-; now left|].
  destruct (has (allPreviouslyUsedWords st) w); [|discriminate].
  intro H; injection H as <-; now right.
Qed.

(** C7.  The timeout appends an attempt whose [newWord] is the timeout
    marker, with similarity 0, [success = false] and -1000 points, takes
    one life, and clamps the score at [max 0 (score - 1000)], the current
    word staying as it is; when no life is left the phase becomes
    [GAME_OVER], otherwise the timer is back at 30 and the phase is kept. *)
Theorem C7_handleTimeout (st : State) :
  let st' := handleTimeout st in
  history st'
  = (history st
       ++ [ {| previousWord := currentWord st;
               newWord := timeoutMarker;
               similarity := 0;
               success := false;
               requiredThreshold := currentThreshold st;
               points := -1000 |} ])%list
  /\ lives st' = lives st - 1
  /\ score st' = Z.max 0 (score st - 1000)
  /\ currentWord st' = currentWord st
  /\ (lives st' <= 0 -> gameState st' = GAME_OVER)
  /\ (0 < lives st' ->
      timeLeft st' = 30 /\ gameState st' = gameState st).
Proof.
  unfold handleTimeout.
  destruct (Z.leb_spec (lives st - 1) 0);
    unfold_handlers; repeat split; auto; lia.
Qed.

Lemma C7_handleTimeout_witness :
  gameState (handleTimeout lastLife) = GAME_OVER
  /\ timeLeft (handleTimeout firstRound) = 30
  /\ gameState (handleTimeout firstRound) = PLAYING.
Proof.
  split.
  - apply (proj1 (proj2 (proj2 (proj2 (proj2 (C7_handleTimeout lastLife)))))).
    vm_compute. discriminate.
  - apply (proj2 (proj2 (proj2 (proj2 (proj2 (C7_handleTimeout firstRound)))))).
    vm_compute. reflexivity.
Defined.

(** ** Scoring of a successful submission *)

(** C1.  A submission that reaches the oracle and comes back with a
    similarity at or above the threshold is scored
    [basePoints = round((similarity - threshold) * 10000)],
    [roundNumber = 1 + successes so far],
    [bonus = round(basePoints * (roundNumber * 0.2))],
    [points = round((basePoints + bonus) * multiplier)]; the score grows
    by [points], the threshold by 0.01, the candidate becomes the current
    word, lives are back at 3 and the timer at 30, and an attempt with
    [success = true] is appended.  With threshold 0.5 and multiplier 2, a
    first submission at similarity 0.65 gives 1500, 300 and 3600. *)
Theorem C1_success_scoring
        (st st1 : State) (k : Closure) (d : Difficulty)
        (candidate : string) (sim : float) :
  difficulty st = Some d ->
  handleSubmitWord_begin candidate st = Awaiting st1 k ->
  (currentThreshold st <=? sim)%float = true ->
  let base := Math_round ((sim - currentThreshold st) * 10000)%float in
  let round := 1 + Z.of_nat (List.length (filter success (history st))) in
  let bonus := Math_round (of_Z base * (of_Z round * 0.2))%float in
  let pts := Math_round (of_Z (base + bonus) * multiplier d)%float in
  let st2 := handleSubmitWord_resume k (Fulfilled sim) st1 in
  score st2 = score st + pts
  /\ currentThreshold st2 = (currentThreshold st + 0.01)%float
  /\ currentWord st2 = candidate
  /\ lives st2 = 3
  /\ timeLeft st2 = 30
  /\ history st2
     = (history st
          ++ [ {| previousWord := currentWord st;
                  newWord := candidate;
                  similarity := sim;
                  success := true;
                  requiredThreshold := currentThreshold st;
                  points := pts |} ])%list
  /\ gameState st2 = gameState st
  /\ (Math_round ((0.65 - 0.5) * 10000)%float = 1500
      /\ Math_round (of_Z 1500 * (of_Z 1 * 0.2))%float = 300
      /\ Math_round (of_Z (1500 + 300) * 2.0)%float = 3600).
Proof.
  intros Hd Hbegin Hsucc.
  apply handleSubmitWord_begin_awaiting in Hbegin.
  destruct Hbegin as (-> & Hd' & _ & _ & Hk).
  rewrite Hd in Hd'. injection Hd' as Hd'.
  rewrite Hk; clear Hk. subst d.
  unfold handleSubmitWord_resume; fields.
  rewrite Hsucc.
  unfold basePoints, bonusPoints, totalPoints, roundNumber.
  rewrite (Z.add_comm (Z.of_nat (List.length (filter success (history st))))
                      1).
  unfold_handlers.
  do 7 (split; [reflexivity|]).
  repeat split; vm_compute; reflexivity.
Qed.

Lemma C1_success_scoring_witness :
  let st2 :=
    handleSubmitWord_resume
      (mkClosure "강" "바다" (mkDifficulty "시나리오" 0.5 2.0) 0.5 [] 3)
      (Fulfilled 0.65%float)
      (setError None (setIsLoading true scenario)) in
  score st2 = 3600 /\ lives st2 = 3 /\ timeLeft st2 = 30
  /\ currentWord st2 = "강"
  /\ map points (history st2) = [3600].
Proof.
  pose proof (C1_success_scoring
                scenario (setError None (setIsLoading true scenario))
                (mkClosure "강" "바다" (mkDifficulty "시나리오" 0.5 2.0)
                           0.5 [] 3)
                (mkDifficulty "시나리오" 0.5 2.0) "강" 0.65%float
                eq_refl eq_refl eq_refl) as H.
  cbv zeta in H. destruct H as (Hs & _ & Hw & Hl & Ht & Hh & _).
  cbv zeta. rewrite Hs, Hw, Hl, Ht, Hh.
  repeat split; vm_compute; reflexivity.
Defined.

(** ** Oracle failures *)

(** C3, as stated, on the freshly mounted component: after a start that
    failed, the session fields are not all as they were before it. *)
Lemma C3_not_atomic_counterexample :
  let st := initial in
  let st' := failedStart (mkDifficulty "보통" 0.50 1.0) "network" st in
  ~ (difficulty st' = difficulty st
     /\ currentThreshold st' = currentThreshold st
     /\ score st' = score st
     /\ lives st' = lives st
     /\ timeLeft st' = timeLeft st
     /\ history st' = history st
     /\ currentWord st' = currentWord st).
Proof.
  cbv zeta. intros [H _]. vm_compute in H. discriminate H.
Qed.

(** C3 (amended).  When the oracle call of a start fails, the phase is
    [SELECTING_DIFFICULTY], the error message is surfaced, the loading
    flag is lowered and the current word is as before; the fields written
    ahead of the call keep their new values: the chosen difficulty and its
    threshold, score 0, 3 lives, 30 seconds and an empty history. *)
Theorem C3_failed_start (d : Difficulty) (message : string) (st : State) :
  let st' := failedStart d message st in
  gameState st' = SELECTING_DIFFICULTY
  /\ error st' = Some message
  /\ isLoading st' = false
  /\ currentWord st' = currentWord st
  /\ difficulty st' = Some d
  /\ currentThreshold st' = threshold d
  /\ score st' = 0
  /\ lives st' = 3
  /\ timeLeft st' = 30
  /\ history st' = [].
Proof.
  unfold failedStart. unfold_handlers. repeat split.
Qed.

(** A rejected similarity call only stores the message and lowers the
    loading flag. *)
Lemma handleSubmitWord_resume_rejected
      (k : Closure) (message : string) (st : State) :
  handleSubmitWord_resume k (Rejected message) st
  = setIsLoading false (setError (Some message) st).
Proof. reflexivity. Qed.

(** ** Invariants of the reachable states *)

Lemma GameState_eqb_eq (a b : GameState) :
  GameState_eqb a b = true <-> a = b.
Proof. destruct a, b; simpl; split; congruence. Qed.

(** What the dispatch of a submission through [renderContent] and
    [GameScreen.handleSubmit] comes to. *)
Lemma submitWord_guard (w : string) (st : State) :
  submitWord w st =
  if GameState_eqb (gameState st) PLAYING
     && (negb (w =? EmptyString)%string && negb (isLoading st))
  then Some (handleSubmitWord_begin w st)
  else None.
Proof.
  unfold submitWord, renderContent, GameScreen_handleSubmit.
  destruct (gameState st); reflexivity.
Qed.

Lemma step_SubmitWord_guard (m : Machine) (w : string) :
  step m (SubmitWord w) =
  if GameState_eqb (gameState (app m)) PLAYING
     && (negb (w =? EmptyString)%string && negb (isLoading (app m)))
  then match handleSubmitWord_begin w (app m) with
       | Returned st' => Some (mkMachine st' (call m) (startingWord m))
       | Awaiting st' k =>
           Some (mkMachine st' (SimilarityCall k) (startingWord m))
       end
  else None.
Proof.
  cbn [step]. rewrite submitWord_guard.
  now destruct (GameState_eqb (gameState (app m)) PLAYING
                && (negb (w =? EmptyString)%string
                    && negb (isLoading (app m)))).
Qed.

Lemma has_true (l : list string) (w : string) :
  has l w = true <-> In w l.
Proof.
  unfold has. rewrite existsb_exists. split.
  - intros (x & Hin & Heq). apply String.eqb_eq in Heq. now subst.
  - intro Hin. exists w. split; [assumption | apply String.eqb_refl].
Qed.

Lemma has_false (l : list string) (w : string) :
  has l w = false -> ~ In w l.
Proof.
  intros Hf Hin. apply has_true in Hin. congruence.
Qed.

Lemma occurrences_app (w : string) (h1 h2 : list GameAttempt) :
  occurrences w (h1 ++ h2) = (occurrences w h1 + occurrences w h2)%nat.
Proof.
  unfold occurrences. now rewrite filter_app, length_app.
Qed.

Lemma occurrences_absent (w : string) (h : list GameAttempt) :
  ~ In w (map newWord h) -> occurrences w h = 0%nat.
Proof.
  unfold occurrences. induction h as [|a h IH]; simpl; intro Hn;
    [reflexivity|].
  destruct (String.eqb_spec (newWord a) w) as [Heq|Hne].
  - exfalso. apply Hn. now left.
  - apply IH. intro Hin. apply Hn. now right.
Qed.

Lemma Inv_mounted : Inv mounted.
Proof.
  constructor; unfold mounted, initial; fields;
    try lia; try congruence; auto.
Qed.

Lemma firstWordOf_snoc (st st' : State) (a : GameAttempt) :
  history st' = (history st ++ [a])%list ->
  previousWord a = currentWord st ->
  firstWordOf st' = firstWordOf st.
Proof.
  unfold firstWordOf. intros -> Hprev.
  destruct (history st); cbn [List.app]; auto.
Qed.

Lemma occurrences_snoc_other (w : string) (h : list GameAttempt)
      (a : GameAttempt) :
  newWord a <> w ->
  occurrences w (h ++ [a]) = occurrences w h.
Proof.
  intro Hne. rewrite occurrences_app. unfold occurrences at 2.
  cbn [filter]. destruct (String.eqb_spec (newWord a) w); [congruence|].
  cbn [List.length]. lia.
Qed.

Lemma occurrences_snoc_fresh (w : string) (h : list GameAttempt)
      (a : GameAttempt) :
  ~ In (newWord a) (map newWord h) ->
  (occurrences w h <= 1)%nat ->
  (occurrences w (h ++ [a]) <= 1)%nat.
Proof.
  intros Hfresh Hle.
  destruct (String.eqb_spec (newWord a) w) as [Heq|Hne].
  - subst w. rewrite occurrences_app, (occurrences_absent _ _ Hfresh).
    unfold occurrences. cbn [filter].
    destruct (newWord a =? newWord a)%string; cbn [List.length]; lia.
  - now rewrite occurrences_snoc_other.
Qed.

(** *** Each handler keeps the invariant *)

Lemma Inv_timeout (m : Machine) :
  Inv m -> gameState (app m) = PLAYING -> isLoading (app m) = false ->
  Inv (mkMachine (handleTimeout (app m)) (call m) (startingWord m)).
Proof.
  intros [Hl Hp Ho Ht Hs Hc Hf Hd] Hplay Hload.
  specialize (Hp Hplay).
  destruct m as [st c sw]; fields.
  assert (Hsel : gameState st <> SELECTING_DIFFICULTY) by congruence.
  specialize (Hf Hsel).
  destruct c as [| |k];
    [|destruct Hc as (? & ? & ?); congruence
     |destruct Hc as (? & ? & ?); congruence].
  unfold handleTimeout.
  destruct (Z.leb_spec (lives st - 1) 0) as [Hz|Hz];
    constructor; unfold_handlers; try lia; try congruence; auto.
  - intros _. rewrite <- Hf. eapply firstWordOf_snoc; reflexivity.
  - intros w Hw. rewrite occurrences_snoc_other; [now apply Hd|].
    fields. congruence.
  - intros _. rewrite <- Hf. eapply firstWordOf_snoc; reflexivity.
  - intros w Hw. rewrite occurrences_snoc_other; [now apply Hd|].
    fields. congruence.
Qed.

Lemma Inv_tick (m m' : Machine) :
  Inv m -> step m IntervalTick = Some m' -> Inv m'.
Proof.
  intros HI Hstep. cbn [step] in Hstep. unfold intervalDelay in Hstep.
  destruct (GameState_eqb (gameState (app m)) PLAYING) eqn:Hplay;
    [|discriminate].
  apply GameState_eqb_eq in Hplay.
  destruct (isLoading (app m)) eqn:Hload; [discriminate|].
  cbn [negb andb] in Hstep. injection Hstep as <-.
  unfold intervalCallback.
  destruct (Z.leb_spec (timeLeft (app m)) 1) as [Hz|Hz].
  - now apply Inv_timeout.
  - destruct HI as [Hl Hp Ho Ht Hs Hc Hf Hd].
    destruct m as [st c sw]; fields.
    constructor; unfold_handlers; try lia; try congruence; auto.
Qed.

Lemma Inv_select (m m' : Machine) (choice : Choice) :
  Inv m -> step m (SelectDifficulty choice) = Some m' -> Inv m'.
Proof.
  intros HI Hstep. cbn [step] in Hstep.
  destruct (selected choice) as [d|]; [|discriminate].
  destruct (GameState_eqb (gameState (app m)) SELECTING_DIFFICULTY) eqn:Hsel;
    [|discriminate].
  apply GameState_eqb_eq in Hsel.
  destruct (isLoading (app m)) eqn:Hload; [discriminate|].
  cbn [negb andb] in Hstep. injection Hstep as <-.
  destruct HI as [Hl Hp Ho Ht Hs Hc Hf Hd].
  destruct m as [st c sw]; fields.
  destruct (Hs Hsel) as [Hw Hh].
  constructor; unfold_handlers; try lia; try congruence; auto.
Qed.

Lemma Inv_randomWord (m m' : Machine) (r : Settled string) :
  Inv m -> step m (RandomWordSettled r) = Some m' -> Inv m'.
Proof.
  intros HI Hstep. cbn [step] in Hstep.
  destruct HI as [Hl Hp Ho Ht Hs Hc Hf Hd].
  destruct m as [st c sw]; fields.
  destruct c as [| |k]; try discriminate.
  injection Hstep as <-. destruct Hc as (Hload & Hsel & Hthree).
  destruct (Hs Hsel) as [Hw Hh].
  destruct r as [w|msg];
    constructor; unfold_handlers; try lia; try congruence; auto.
  intros _. unfold firstWordOf. unfold_handlers. now rewrite Hh.
Qed.

Lemma Inv_restart (m m' : Machine) :
  Inv m -> step m Restart = Some m' -> Inv m'.
Proof.
  intros HI Hstep. cbn [step] in Hstep.
  destruct (GameState_eqb (gameState (app m)) GAME_OVER) eqn:Hover;
    [|discriminate].
  apply GameState_eqb_eq in Hover. injection Hstep as <-.
  destruct HI as [Hl Hp Ho Ht Hs Hc Hf Hd].
  destruct m as [st c sw]; fields.
  destruct c as [| |k];
    [|destruct Hc as (? & ? & ?); congruence
     |destruct Hc as (? & ? & ?); congruence].
  constructor; unfold_handlers; try lia; try congruence; auto.
Qed.

Lemma Inv_submit (m m' : Machine) (w : string) :
  Inv m -> step m (SubmitWord w) = Some m' -> Inv m'.
Proof.
  intros HI Hstep. rewrite step_SubmitWord_guard in Hstep.
  destruct (GameState_eqb (gameState (app m)) PLAYING) eqn:Hplay;
    [|discriminate].
  apply GameState_eqb_eq in Hplay.
  destruct (negb (w =? EmptyString)%string); [|discriminate].
  destruct (isLoading (app m)) eqn:Hload; [discriminate|].
  cbn [negb andb] in Hstep.
  destruct HI as [Hl Hp Ho Ht Hs Hc Hf Hd].
  destruct (handleSubmitWord_begin w (app m)) as [st'|st' k] eqn:Hbegin;
    injection Hstep as <-.
  - apply handleSubmitWord_begin_returned in Hbegin.
    destruct m as [st c sw]; fields.
    destruct Hbegin as [->| ->];
      constructor; unfold_handlers; try lia; try congruence; auto.
  - apply handleSubmitWord_begin_awaiting in Hbegin.
    destruct Hbegin as (-> & Hdiff & Hcw & Hhas & Hk).
    destruct m as [st c sw]; fields.
    constructor; unfold_handlers; try lia; try congruence; auto.
    split; [reflexivity|]. split; [assumption|].
    rewrite Hk. unfold fresh. unfold_handlers.
    repeat split; auto.
    intro Hin. apply has_false in Hhas. apply Hhas.
    unfold allPreviouslyUsedWords. apply in_or_app. now left.
Qed.

Lemma Inv_similarity (m m' : Machine) (parsed : Settled float) :
  Inv m -> step m (SimilaritySettled parsed) = Some m' -> Inv m'.
Proof.
  intros HI Hstep. cbn [step] in Hstep.
  destruct HI as [Hl Hp Ho Ht Hs Hc Hf Hd].
  destruct m as [st c sw]; fields.
  destruct c as [| |k]; try discriminate.
  injection Hstep as <-.
  destruct Hc as (Hload & Hplay & Hcw & Hdiff & Hthr & Hhist & Hlives & Hnew).
  specialize (Hp Hplay).
  assert (Hsel : gameState st <> SELECTING_DIFFICULTY) by congruence.
  specialize (Hf Hsel).
  unfold handleSubmitWord_resume.
  destruct (calculateSimilarity parsed) as [sim|msg].
  - destruct (cl_currentThreshold k <=? sim)%float;
      [|destruct (Z.leb_spec (cl_lives k - 1) 0)];
      constructor; unfold_handlers; try lia; try congruence; auto.
    all: try (intros _; rewrite <- Hf;
              eapply firstWordOf_snoc; [reflexivity | exact Hcw]).
    all: try (intros w Hw;
              apply occurrences_snoc_fresh; [exact Hnew | now apply Hd]).
  - constructor; unfold_handlers; try lia; try congruence; auto.
Qed.

Lemma Inv_step (m m' : Machine) (ev : Event) :
  Inv m -> step m ev = Some m' -> Inv m'.
Proof.
  destruct ev.
  - apply Inv_select.
  - apply Inv_randomWord.
  - apply Inv_tick.
  - apply Inv_submit.
  - apply Inv_similarity.
  - apply Inv_restart.
Qed.

Lemma Inv_run (evs : list Event) :
  forall m m', Inv m -> run m evs = Some m' -> Inv m'.
Proof.
  induction evs as [|ev evs IH]; intros m m' HI Hrun; cbn [run] in Hrun.
  - now injection Hrun as <-.
  - destruct (step m ev) as [m1|] eqn:Hstep; [|discriminate].
    eapply IH; [|exact Hrun]. eapply Inv_step; eassumption.
Qed.

Lemma Inv_reachable (m : Machine) : reachable m -> Inv m.
Proof.
  intros [evs Hrun]. eapply Inv_run; [exact Inv_mounted | exact Hrun].
Qed.

Lemma reachable_step (m m' : Machine) (ev : Event) :
  reachable m -> step m ev = Some m' -> reachable m'.
Proof.
  intros [evs Hrun] Hstep. exists (evs ++ [ev])%list.
  revert Hrun. generalize mounted.
  induction evs as [|e evs IH]; intros m0 Hrun; cbn [run List.app] in *.
  - injection Hrun as ->. now rewrite Hstep.
  - destruct (step m0 e); [now apply IH | discriminate].
Qed.

Lemma reachable_after (evs : list Event) :
  run mounted evs <> None -> reachable (after evs).
Proof.
  unfold after, reachable. destruct (run mounted evs) as [m|] eqn:Hrun.
  - intros _. now exists evs.
  - congruence.
Qed.

(** ** Lives and phase *)

(** C4, as stated, after three failures and a restart: no life is left,
    and the phase is not [GAME_OVER]. *)
Lemma C4_restart_counterexample :
  exists m,
    run mounted (threeFailures ++ [Restart]) = Some m
    /\ ~ (gameState (app m) = GAME_OVER <-> lives (app m) = 0).
Proof.
  eexists. split; [vm_compute; reflexivity|].
  cbn [app gameState lives]. intros [_ H]. specialize (H eq_refl).
  discriminate H.
Qed.

(** C4 (amended).  In every reachable state [lives] is an integer between
    0 and 3; the phase [GAME_OVER] implies that no life is left, and while
    a session is on (playing or over) the converse holds as well; after a
    restart the lives stay as they were until the next start sets them to
    3. *)
Theorem C4_lives_and_phase (m : Machine) :
  reachable m ->
  0 <= lives (app m) <= 3
  /\ (gameState (app m) = GAME_OVER -> lives (app m) = 0)
  /\ (gameState (app m) <> SELECTING_DIFFICULTY ->
      (gameState (app m) = GAME_OVER <-> lives (app m) = 0))
  /\ (forall m', step m Restart = Some m' ->
                 gameState (app m') = SELECTING_DIFFICULTY
                 /\ lives (app m') = lives (app m)).
Proof.
  intro Hr. destruct (Inv_reachable m Hr) as [Hl Hp Ho _ _ _ _ _].
  split; [exact Hl|]. split; [exact Ho|]. split.
  - intro Hsel. split; [exact Ho|]. intro Hz.
    destruct (gameState (app m)); [congruence | | reflexivity].
    specialize (Hp eq_refl). lia.
  - intros m' Hstep. cbn [step] in Hstep.
    destruct (GameState_eqb (gameState (app m)) GAME_OVER); [|discriminate].
    injection Hstep as <-. unfold_handlers. split; reflexivity.
Qed.

Lemma C4_lives_and_phase_witness :
  0 <= lives (app (after threeFailures)) <= 3
  /\ (gameState (app (after threeFailures)) = GAME_OVER
      <-> lives (app (after threeFailures)) = 0).
Proof.
  assert (Hr : reachable (after threeFailures)).
  { apply reachable_after. vm_compute. discriminate. }
  destruct (C4_lives_and_phase (after threeFailures) Hr) as (Hl & _ & Hiff & _).
  split; [exact Hl|]. apply Hiff. vm_compute. discriminate.
Defined.

(** ** Submissions *)

(** The guard of the word form: what is known when a [SubmitWord] event
    is taken. *)
Lemma step_SubmitWord (m m' : Machine) (w : string) :
  step m (SubmitWord w) = Some m' ->
  gameState (app m) = PLAYING
  /\ isLoading (app m) = false
  /\ ((exists st', handleSubmitWord_begin w (app m) = Returned st'
                   /\ m' = mkMachine st' (call m) (startingWord m))
      \/ (exists st' k, handleSubmitWord_begin w (app m) = Awaiting st' k
                        /\ m' = mkMachine st' (SimilarityCall k)
                                          (startingWord m))).
Proof.
  intro Hstep. rewrite step_SubmitWord_guard in Hstep.
  destruct (GameState_eqb (gameState (app m)) PLAYING) eqn:Hplay;
    [|discriminate].
  apply GameState_eqb_eq in Hplay.
  destruct (negb (w =? EmptyString)%string); [|discriminate].
  destruct (isLoading (app m)) eqn:Hload; [discriminate|].
  cbn [negb andb] in Hstep.
  split; [exact Hplay|]. split; [reflexivity|].
  destruct (handleSubmitWord_begin w (app m)) as [st'|st' k];
    injection Hstep as <-; [left | right]; eauto.
Qed.

Lemma setError_setIsLoading_roundtrip (st : State) (e : option string) :
  isLoading st = false ->
  setIsLoading false (setError e (setError None (setIsLoading true st)))
  = setError e st.
Proof.
  intro Hload. destruct st. cbn [isLoading] in Hload. subst.
  reflexivity.
Qed.

(** C5.  When the similarity call of a submission fails (the request is
    rejected, or the reply holds no finite number), the message is
    reported and the state is the one in which the word was submitted
    with only the error replaced: no attempt is recorded, and lives,
    timer, score, threshold, current word and phase are untouched; the
    same word can be submitted again. *)
Theorem C5_failed_similarity
        (m m1 : Machine) (k : Closure) (w message : string)
        (parsed : Settled float) :
  reachable m ->
  step m (SubmitWord w) = Some m1 ->
  call m1 = SimilarityCall k ->
  calculateSimilarity parsed = Rejected message ->
  exists m2,
    step m1 (SimilaritySettled parsed) = Some m2
    /\ app m2 = setError (Some message) (app m)
    /\ error (app m2) = Some message
    /\ call m2 = NoCall
    /\ history (app m2) = history (app m)
    /\ lives (app m2) = lives (app m)
    /\ timeLeft (app m2) = timeLeft (app m)
    /\ score (app m2) = score (app m)
    /\ currentThreshold (app m2) = currentThreshold (app m)
    /\ currentWord (app m2) = currentWord (app m)
    /\ gameState (app m2) = gameState (app m)
    /\ step m2 (SubmitWord w) = Some m1.
Proof.
  intros Hr Hstep Hcall Hfail.
  pose proof (Inv_reachable m Hr) as HI.
  pose proof Hstep as Hstep0.
  apply step_SubmitWord in Hstep.
  destruct Hstep as (Hplay & Hload & [(st' & Hbegin & ->)|(st' & k' & Hbegin & ->)]).
  - (* an early return places no call *)
    exfalso. cbn [call] in Hcall.
    pose proof (inv_call m HI) as Hc. rewrite Hcall in Hc.
    destruct Hc as (Hc & _). congruence.
  - cbn [call] in Hcall. injection Hcall as ->.
    pose proof Hbegin as Hbegin0.
    apply handleSubmitWord_begin_awaiting in Hbegin.
    destruct Hbegin as (-> & Hdiff & Hcw & Hhas & Hk).
    eexists. split.
    { cbn [step call app]. rewrite Hfail.
      rewrite handleSubmitWord_resume_rejected.
      rewrite setError_setIsLoading_roundtrip by exact Hload.
      reflexivity. }
    cbn [app call]. split; [reflexivity|].
    unfold_handlers. do 9 (split; [reflexivity|]).
    (* the retry: the same guards pass on the same fields *)
    rewrite step_SubmitWord_guard. cbn [app].
    rewrite step_SubmitWord_guard in Hstep0.
    unfold_handlers.
    destruct (GameState_eqb (gameState (app m)) PLAYING); [|discriminate].
    destruct (negb (w =? EmptyString)%string); [|discriminate].
    rewrite Hload in *. cbn [negb andb] in *.
    unfold handleSubmitWord_begin in *. unfold allPreviouslyUsedWords in *.
    unfold_handlers.
    destruct (difficulty (app m)); [|discriminate].
    destruct (currentWord (app m) =? EmptyString)%string; [discriminate|].
    destruct (has _ w); [discriminate|].
    injection Hbegin0 as <-.
    reflexivity.
Qed.

Lemma C5_failed_similarity_witness :
  exists m2,
    step (after inFlight) (SimilaritySettled (Fulfilled nan)) = Some m2
    /\ app m2 = setError (Some parseFailure) (app (after started))
    /\ history (app m2) = []
    /\ lives (app m2) = 3.
Proof.
  assert (Hr : reachable (after started)).
  { apply reachable_after. vm_compute. discriminate. }
  assert (Hstep : step (after started) (SubmitWord "파도")
                  = Some (after inFlight)).
  { vm_compute. reflexivity. }
  assert (Hcall : call (after inFlight)
                  = SimilarityCall (mkClosure "파도" "바다" normal 0.5 [] 3)).
  { vm_compute. reflexivity. }
  assert (Hfail : calculateSimilarity (Fulfilled nan) = Rejected parseFailure).
  { vm_compute. reflexivity. }
  destruct (C5_failed_similarity _ _ _ _ _ _ Hr Hstep Hcall Hfail)
    as (m2 & H2 & Happ & _ & _ & Hh & Hl & _).
  exists m2. split; [exact H2|]. split; [exact Happ|].
  split; [rewrite Hh | rewrite Hl]; vm_compute; reflexivity.
Defined.

(** ** Used words *)

(** C6, as stated, in a session where the player typed the text of the
    timeout marker, was accepted, and then let the timer run out: the
    current word is the [newWord] of two attempts. *)
Lemma C6_marker_counterexample :
  exists m,
    run mounted markerThenTimeout = Some m
    /\ occurrences (currentWord (app m)) (history (app m)) = 2%nat.
Proof.
  eexists. split; vm_compute; reflexivity.
Qed.

(** C6 (amended).  In every reachable state a submission of a word that
    is already used (the starting word, or the [newWord] of any attempt
    of the history) returns before the oracle is called and leaves score,
    lives, timer and history as they are; consequently no word other than
    the timeout marker is the [newWord] of two attempts, and the current
    word is the [newWord] of at most one attempt unless it is the text of
    the timeout marker. *)
Theorem C6_used_words (m : Machine) :
  reachable m ->
  (forall w,
      In w (usedWords m) ->
      (exists st',
          handleSubmitWord_begin w (app m) = Returned st'
          /\ score st' = score (app m)
          /\ lives st' = lives (app m)
          /\ timeLeft st' = timeLeft (app m)
          /\ history st' = history (app m))
      /\ (forall m', step m (SubmitWord w) = Some m' ->
                     call m' = NoCall
                     /\ score (app m') = score (app m)
                     /\ lives (app m') = lives (app m)
                     /\ timeLeft (app m') = timeLeft (app m)
                     /\ history (app m') = history (app m)))
  /\ (forall w, w <> timeoutMarker ->
                (occurrences w (history (app m)) <= 1)%nat)
  /\ (currentWord (app m) <> timeoutMarker ->
      (occurrences (currentWord (app m)) (history (app m)) <= 1)%nat).
Proof.
  intro Hr. pose proof (Inv_reachable m Hr) as HI.
  assert (Hrej : forall w, In w (usedWords m) ->
            exists st',
              handleSubmitWord_begin w (app m) = Returned st'
              /\ score st' = score (app m)
              /\ lives st' = lives (app m)
              /\ timeLeft st' = timeLeft (app m)
              /\ history st' = history (app m)).
  { intros w Hin. unfold handleSubmitWord_begin.
    destruct (difficulty (app m)) as [d|]; [|eexists; repeat split].
    destruct (String.eqb_spec (currentWord (app m)) EmptyString) as [Hcw|Hcw];
      [eexists; repeat split|].
    assert (Hsel : gameState (app m) <> SELECTING_DIFFICULTY).
    { intro Hsel. now destruct (inv_selecting m HI Hsel). }
    pose proof (inv_first m HI Hsel) as Hfirst.
    assert (Hhas : has (allPreviouslyUsedWords (app m)) w = true).
    { apply has_true. unfold allPreviouslyUsedWords. apply in_or_app.
      destruct Hin as [Hin|Hin]; [right | now left].
      left. rewrite <- Hin, <- Hfirst. reflexivity. }
    rewrite Hhas. eexists. split; [reflexivity|].
    unfold_handlers. repeat split. }
  split; [|split].
  - intros w Hin. split; [now apply Hrej|].
    intros m' Hstep. destruct (Hrej w Hin) as (st' & Hbegin & Hs & Hl & Ht & Hh).
    apply step_SubmitWord in Hstep.
    destruct Hstep as (_ & Hload & [(st1 & Hb & ->)|(st1 & k & Hb & _)]);
      [|congruence].
    rewrite Hbegin in Hb. injection Hb as <-. cbn [app call].
    repeat split; auto.
    pose proof (inv_call m HI) as Hc.
    destruct (call m) as [| |k]; [reflexivity| |];
      destruct Hc as (Hc & _); congruence.
  - exact (inv_distinct m HI).
  - apply (inv_distinct m HI).
Qed.

Lemma C6_used_words_witness :
  exists st',
    handleSubmitWord_begin "책상" (app (after threeFailures)) = Returned st'
    /\ score st' = score (app (after threeFailures))
    /\ lives st' = lives (app (after threeFailures))
    /\ timeLeft st' = timeLeft (app (after threeFailures))
    /\ history st' = history (app (after threeFailures)).
Proof.
  assert (Hr : reachable (after threeFailures)).
  { apply reachable_after. vm_compute. discriminate. }
  apply (proj1 (C6_used_words (after threeFailures) Hr)).
  vm_compute. right. left. reflexivity.
Defined.

(** ** Submissions outside of play *)

(** [handleSubmitWord] does not look at the phase.  Evaluated on the
    state that three failures leave behind, with the game over, it would
    call the oracle, and a low similarity would take a fourth life and
    record a fourth attempt.  No screen that is mounted in that state
    holds the handler, as the theorem after this remark shows. *)
Remark handleSubmitWord_unguarded_by_phase :
  gameState (app (after threeFailures)) = GAME_OVER
  /\ lives (app (after threeFailures)) = 0
  /\ exists st1 k,
      handleSubmitWord_begin "모자" (app (after threeFailures))
      = Awaiting st1 k
      /\ let st2 :=
           handleSubmitWord_resume
             k (calculateSimilarity (Fulfilled 0.1%float)) st1 in
         lives st2 = -1
         /\ List.length (history st2) = 4%nat
         /\ List.length (history (app (after threeFailures))) = 3%nat.
Proof.
  split; [vm_compute; reflexivity|].
  split; [vm_compute; reflexivity|].
  eexists. eexists. split; [vm_compute; reflexivity|].
  cbv zeta. repeat split; vm_compute; reflexivity.
Qed.



(** ** The timer *)

(** C9.  While the similarity call of a submission is outstanding the
    interval is off ([intervalDelay] is [null]): no tick is taken, so the
    timer is not decremented and no timeout fires.  The only event that
    can be taken is the settling of that call, which commits at most one
    attempt and takes at most one life; the round is penalised once. *)
Theorem C9_no_tick_in_flight (m : Machine) (k : Closure) :
  reachable m ->
  call m = SimilarityCall k ->
  intervalDelay (app m) = None
  /\ step m IntervalTick = None
  /\ forall ev m',
      step m ev = Some m' ->
      (exists parsed, ev = SimilaritySettled parsed)
      /\ call m' = NoCall
      /\ isLoading (app m') = false
      /\ (List.length (history (app m'))
          <= S (List.length (history (app m))))%nat
      /\ lives (app m) - 1 <= lives (app m').
Proof.
  intros Hr Hcall. pose proof (Inv_reachable m Hr) as HI.
  pose proof (inv_call m HI) as Hc. rewrite Hcall in Hc.
  destruct Hc as (Hload & Hplay & Hfresh).
  destruct Hfresh as (_ & _ & _ & _ & Hlives & _).
  pose proof (inv_lives m HI) as Hl.
  assert (Hdelay : intervalDelay (app m) = None).
  { unfold intervalDelay. rewrite Hload. now rewrite andb_false_r. }
  split; [exact Hdelay|]. split; [cbn [step]; now rewrite Hdelay|].
  intros ev m' Hstep. destruct ev; cbn [step] in Hstep.
  - rewrite Hplay in Hstep. destruct (selected c); discriminate.
  - rewrite Hcall in Hstep. discriminate.
  - rewrite Hdelay in Hstep. discriminate.
  - rewrite submitWord_guard, Hload in Hstep.
    rewrite !andb_false_r in Hstep. discriminate.
  - rewrite Hcall in Hstep. injection Hstep as <-.
    split; [eauto|]. cbn [app call]. split; [reflexivity|].
    unfold handleSubmitWord_resume.
    destruct (calculateSimilarity parsed) as [sim|msg];
      [destruct (cl_currentThreshold k <=? sim)%float;
       [|destruct (cl_lives k - 1 <=? 0)]|];
      unfold_handlers; rewrite ?length_app; cbn [List.length];
        repeat split; lia.
  - rewrite Hplay in Hstep. discriminate.
Qed.

Lemma C9_no_tick_in_flight_witness :
  step (after inFlight) IntervalTick = None.
Proof.
  apply (C9_no_tick_in_flight
           (after inFlight) (mkClosure "파도" "바다" normal 0.5 [] 3)).
  - apply reachable_after. vm_compute. discriminate.
  - vm_compute. reflexivity.
Defined.

(** C10.  In every reachable state the timer is between 1 and 30, in
    particular while playing, where it is never 0: a tick at 1 runs the
    timeout, which ends the game or sets the timer back to 30, a tick
    above 1 takes one second off, and a settled submission that was
    scored and leaves the session in play sets the timer to 30. *)
Theorem C10_timer_range (m : Machine) :
  reachable m ->
  (gameState (app m) = PLAYING -> 1 <= timeLeft (app m) <= 30)
  /\ (forall m',
         step m IntervalTick = Some m' ->
         timeLeft (app m) = 1 ->
         app m' = handleTimeout (app m)
         /\ (gameState (app m') = GAME_OVER
             \/ gameState (app m') = PLAYING /\ timeLeft (app m') = 30))
  /\ (forall m',
         step m IntervalTick = Some m' ->
         1 < timeLeft (app m) ->
         timeLeft (app m') = timeLeft (app m) - 1
         /\ gameState (app m') = PLAYING)
  /\ (forall parsed sim m',
         calculateSimilarity parsed = Fulfilled sim ->
         step m (SimilaritySettled parsed) = Some m' ->
         gameState (app m') = PLAYING ->
         timeLeft (app m') = 30).
Proof.
  intro Hr. pose proof (Inv_reachable m Hr) as HI.
  split; [intros _; exact (inv_time m HI)|].
  assert (Htick : forall m', step m IntervalTick = Some m' ->
            gameState (app m) = PLAYING
            /\ m' = mkMachine (intervalCallback (app m)) (call m)
                              (startingWord m)).
  { intros m' Hstep. cbn [step] in Hstep. unfold intervalDelay in Hstep.
    destruct (GameState_eqb (gameState (app m)) PLAYING) eqn:Hplay;
      [|discriminate].
    apply GameState_eqb_eq in Hplay.
    destruct (isLoading (app m)); [discriminate|].
    cbn [negb andb] in Hstep. injection Hstep as <-. now split. }
  split; [|split].
  - intros m' Hstep Hone. destruct (Htick m' Hstep) as [Hplay ->].
    cbn [app]. unfold intervalCallback. rewrite Hone. cbn [Z.leb Z.compare Pos.compare].
    split; [reflexivity|].
    unfold handleTimeout.
    destruct (lives (app m) - 1 <=? 0); unfold_handlers; auto.
  - intros m' Hstep Hgt. destruct (Htick m' Hstep) as [Hplay ->].
    cbn [app]. unfold intervalCallback.
    destruct (Z.leb_spec (timeLeft (app m)) 1); [lia|].
    unfold_handlers. now split.
  - intros parsed sim m' Hsim Hstep Hplay'. cbn [step] in Hstep.
    destruct (call m) as [| |k]; try discriminate.
    injection Hstep as <-. cbn [app] in *. rewrite Hsim in *.
    unfold handleSubmitWord_resume in *.
    destruct (cl_currentThreshold k <=? sim)%float;
      [|destruct (cl_lives k - 1 <=? 0)];
      unfold_handlers; congruence.
Qed.

Lemma C10_timer_range_witness :
  1 <= timeLeft (app (after inFlight)) <= 30.
Proof.
  apply (C10_timer_range (after inFlight)).
  - apply reachable_after. vm_compute. discriminate.
  - vm_compute. reflexivity.
Defined.

(** * Properties of the rest of the code *)

(** ** The oracle's number *)

Lemma ltb_leb (x y : float) :
  (x <? y)%float = true -> (x <=? y)%float = true.
Proof.
  rewrite FloatAxioms.ltb_spec, FloatAxioms.leb_spec. unfold SFltb, SFleb.
  destruct (SFcompare _ _) as [[]|]; congruence.
Qed.

Lemma calculateSimilarity_range (parsed : Settled float) (sim : float) :
  calculateSimilarity parsed = Fulfilled sim ->
  is_nan sim = false
  /\ (-1 <=? sim)%float = true
  /\ (sim <=? 1)%float = true.
Proof.
  unfold calculateSimilarity.
  destruct parsed as [x|msg]; [|discriminate].
  destruct (is_nan x) eqn:Hnan; [discriminate|]. cbn [negb andb].
  destruct (is_finite x); [|discriminate].
  intro H. injection H as <-.
  unfold Math_min. change (is_nan 1) with false. rewrite Hnan.
  cbn [orb].
  destruct (x <? 1)%float eqn:Hlt1.
  - unfold Math_max. change (is_nan (-1)) with false. rewrite Hnan.
    cbn [orb].
    destruct (-1 <? x)%float eqn:Hlt2.
    + rewrite Hnan. auto using ltb_leb.
    + repeat split; reflexivity.
  - unfold Math_max. change (is_nan (-1)) with false.
    change (is_nan 1) with false. cbn [orb].
    change (-1 <? 1)%float with true. cbv iota.
    repeat split; reflexivity.
Qed.

(** X1.  Whatever the reply of the model parses to, a similarity that
    [calculateSimilarity] returns is a number (not NaN) between -1 and 1;
    a reply that parses to NaN or to an infinity is rejected with the
    parse-failure message. *)
Theorem X1_calculateSimilarity_range (parsed : Settled float) :
  (forall sim,
      calculateSimilarity parsed = Fulfilled sim ->
      is_nan sim = false
      /\ (-1 <=? sim)%float = true
      /\ (sim <=? 1)%float = true)
  /\ (forall x,
         parsed = Fulfilled x ->
         is_nan x = true \/ is_infinity x = true ->
         calculateSimilarity parsed = Rejected parseFailure).
Proof.
  split.
  - intros sim. apply calculateSimilarity_range.
  - intros x -> Hbad. unfold calculateSimilarity, is_finite.
    destruct (is_nan x); [reflexivity|].
    destruct Hbad as [Hbad|Hbad]; [discriminate|]. now rewrite Hbad.
Qed.

Lemma X1_calculateSimilarity_range_witness :
  calculateSimilarity (Fulfilled infinity) = Rejected parseFailure
  /\ (1 <=? 1)%float = true.
Proof.
  split.
  - apply (proj2 (X1_calculateSimilarity_range (Fulfilled infinity)) infinity).
    + reflexivity.
    + right. reflexivity.
  - apply (proj1 (X1_calculateSimilarity_range (Fulfilled 7.5%float)) 1%float).
    vm_compute. reflexivity.
Defined.


(** ** Signs of the floats that are rounded to points *)

Lemma Math_round_nonneg (x : float) : nonneg x -> 0 <= Math_round x.
Proof.
  unfold nonneg, Math_round. destruct (Prim2SF x) as [| | |s m e]; try lia.
  destruct s; cbn [nonnegSF]; [tauto|]. intros _.
  destruct (Z.leb_spec 0 e).
  - apply Z.mul_nonneg_nonneg; [lia | apply Z.pow_nonneg; lia].
  - apply Z.div_pos.
    + assert (0 <= 2 ^ (- e)) by (apply Z.pow_nonneg; lia). lia.
    + apply Z.pow_pos_nonneg; lia.
Qed.

Lemma binary_round_aux_nonneg (m e : Z) (l : location) :
  nonnegSF (binary_round_aux prec emax false m e l).
Proof.
  unfold binary_round_aux.
  destruct (shr_fexp prec emax m e l) as [mrs' e'].
  destruct (shr_fexp prec emax _ e' loc_Exact) as [mrs'' e''].
  destruct (shr_m mrs''); cbn [nonnegSF]; auto.
  destruct (e'' <=? emax - prec); exact I.
Qed.

Lemma binary_normalize_nonneg (z e : Z) :
  0 <= z -> nonnegSF (binary_normalize prec emax z e false).
Proof.
  intro Hz. destruct z as [|p|p]; [exact I| |lia].
  unfold binary_normalize, binary_round.
  destruct (shl_align p e _) as [mz ez]. apply binary_round_aux_nonneg.
Qed.

Lemma mul_nonneg (x y : float) : nonneg x -> nonneg y -> nonneg (x * y).
Proof.
  unfold nonneg. rewrite FloatAxioms.mul_spec. unfold SF64mul, SFmul.
  destruct (Prim2SF x) as [sx|sx| |sx mx ex];
    destruct (Prim2SF y) as [sy|sy| |sy my ey];
    cbn [nonnegSF]; auto.
  destruct sx; [tauto|]. destruct sy; [tauto|]. intros _ _.
  apply binary_round_aux_nonneg.
Qed.

Lemma of_Z_nonneg (z : Z) : 0 <= z -> nonneg (of_Z z).
Proof.
  intro Hz. unfold of_Z. destruct (Z.ltb_spec z 0); [lia|].
  unfold nonneg. rewrite FloatAxioms.of_uint63_spec.
  apply binary_normalize_nonneg. apply Uint63.to_Z_bounded.
Qed.

Lemma positive_nonneg (x : float) : (0 <? x)%float = true -> nonneg x.
Proof.
  rewrite FloatAxioms.ltb_spec. unfold nonneg, SFltb.
  change (Prim2SF 0) with (S754_zero false).
  destruct (Prim2SF x) as [s|s| |s m e]; cbn [SFcompare nonnegSF]; auto.
  destruct s; [discriminate | auto].
Qed.

(** The mantissa of a valid binary64 has at most 53 digits, and exactly 53
    above the smallest exponent. *)
Lemma digits2_pos_bounds (m : positive) :
  2 ^ (Zpos (digits2_pos m) - 1) <= Zpos m < 2 ^ Zpos (digits2_pos m).
Proof.
  induction m as [m IH|m IH|]; cbn [digits2_pos].
  - rewrite Pos2Z.inj_succ.
    replace (Z.succ (Zpos (digits2_pos m)) - 1)
      with (Z.succ (Zpos (digits2_pos m) - 1)) by lia.
    rewrite !Z.pow_succ_r by lia. lia.
  - rewrite Pos2Z.inj_succ.
    replace (Z.succ (Zpos (digits2_pos m)) - 1)
      with (Z.succ (Zpos (digits2_pos m) - 1)) by lia.
    rewrite !Z.pow_succ_r by lia. lia.
  - cbn. lia.
Qed.

Lemma bounded_mantissa (m : positive) (e : Z) :
  bounded prec emax m e = true ->
  Zpos m < 2 ^ 53 /\ (-1074 < e -> 2 ^ 52 <= Zpos m).
Proof.
  unfold bounded, canonical_mantissa, fexp, SpecFloat.emin.
  intro H. apply andb_prop in H. destruct H as [H _].
  apply Z.eqb_eq in H.
  pose proof (digits2_pos_bounds m) as [Hlo Hhi].
  change prec with 53 in H. change emax with 1024 in H.
  split.
  - assert (Zpos (digits2_pos m) <= 53) by lia.
    eapply Z.lt_le_trans; [exact Hhi|].
    apply Z.pow_le_mono_r; lia.
  - intro He.
    assert (Zpos (digits2_pos m) = 53) by lia.
    replace 52 with (Zpos (digits2_pos m) - 1) by lia. exact Hlo.
Qed.

Lemma iter_xO_value (m d : positive) :
  Zpos (Pos.iter xO m d) = Zpos m * 2 ^ Zpos d.
Proof.
  induction d as [|d IH] using Pos.peano_ind.
  - cbn [Pos.iter]. rewrite Pos2Z.inj_xO. lia.
  - rewrite Pos.iter_succ, Pos2Z.inj_xO, IH, Pos2Z.inj_succ.
    rewrite Z.pow_succ_r by lia. lia.
Qed.

Lemma shl_align_value (m : positive) (e ez : Z) :
  ez <= e -> Zpos (fst (shl_align m e ez)) = Zpos m * 2 ^ (e - ez).
Proof.
  intro Hle. unfold shl_align.
  destruct (ez - e) as [|d|d] eqn:Hd; cbn [fst].
  - replace (e - ez) with 0 by lia. lia.
  - lia.
  - rewrite iter_xO_value. f_equal. f_equal. lia.
Qed.

(** Subtracting a float from one that is not below it never gives a
    negative number. *)
Lemma sub_nonneg (x y : float) :
  (y <=? x)%float = true -> nonneg (x - y).
Proof.
  unfold nonneg. rewrite FloatAxioms.leb_spec, FloatAxioms.sub_spec.
  pose proof (Prim2SF_valid x) as Vx. pose proof (Prim2SF_valid y) as Vy.
  unfold SFleb, SF64sub, SFsub.
  destruct (Prim2SF x) as [sx|sx| |sx mx ex];
    destruct (Prim2SF y) as [sy|sy| |sy my ey];
    cbn [SFcompare nonnegSF]; auto;
    try (destruct sx, sy; cbn [nonnegSF negb]; auto; discriminate).
  cbn [valid_binary] in Vx, Vy.
  destruct (bounded_mantissa mx ex Vx) as [Hx53 Hx52].
  destruct (bounded_mantissa my ey Vy) as [Hy53 Hy52].
  assert (Hex : -1074 <= ex).
  { unfold bounded, canonical_mantissa, fexp, SpecFloat.emin in Vx.
    change prec with 53 in Vx. change emax with 1024 in Vx.
    apply andb_prop in Vx. destruct Vx as [Vx _]. apply Z.eqb_eq in Vx. lia. }
  assert (Hey : -1074 <= ey).
  { unfold bounded, canonical_mantissa, fexp, SpecFloat.emin in Vy.
    change prec with 53 in Vy. change emax with 1024 in Vy.
    apply andb_prop in Vy. destruct Vy as [Vy _]. apply Z.eqb_eq in Vy. lia. }
  intro Hcmp. apply binary_normalize_nonneg.
  rewrite !shl_align_value by lia.
  assert (Hshift : forall a b, a < b -> 2 * 2 ^ 0 <= 2 ^ (b - a)).
  { intros a b Hab. replace (2 * 2 ^ 0) with (2 ^ 1) by reflexivity.
    apply Z.pow_le_mono_r; lia. }
  assert (Hpos : forall m1 m2 : positive,
             Pos.compare_cont Eq m1 m2 = (m1 ?= m2)%positive)
    by reflexivity.
  destruct sx, sy; cbn [cond_Zopp]; try discriminate.
  - (* both negative: |x| <= |y| *)
    destruct (Z.compare_spec ey ex) as [Heq|Hlt|Hgt]; try discriminate.
    + subst ey. rewrite Z.min_id, Z.sub_diag. rewrite Hpos in Hcmp.
      destruct (Pos.compare_spec my mx) as [Hm|Hm|Hm];
        cbn [CompOpp] in Hcmp; try discriminate; lia.
    + rewrite Z.min_l by lia. rewrite Z.sub_diag.
      specialize (Hshift ex ey Hgt). specialize (Hy52 ltac:(lia)). nia.
  - (* x positive, y negative *)
    assert (0 < 2 ^ (ex - Z.min ex ey)) by (apply Z.pow_pos_nonneg; lia).
    assert (0 < 2 ^ (ey - Z.min ex ey)) by (apply Z.pow_pos_nonneg; lia).
    nia.
  - (* both positive: y <= x *)
    destruct (Z.compare_spec ey ex) as [Heq|Hlt|Hgt]; try discriminate.
    + subst ey. rewrite Z.min_id, Z.sub_diag. rewrite Hpos in Hcmp.
      destruct (Pos.compare_spec my mx) as [Hm|Hm|Hm];
        try discriminate; lia.
    + rewrite Z.min_r by lia. rewrite Z.sub_diag.
      specialize (Hshift ey ex Hlt). specialize (Hx52 ltac:(lia)). nia.
Qed.

Lemma totalPoints_nonneg (sim thr mult : float) (h : list GameAttempt) :
  (thr <=? sim)%float = true ->
  (0 <? mult)%float = true ->
  0 <= totalPoints (basePoints sim thr)
                   (bonusPoints (basePoints sim thr) (roundNumber h))
                   mult.
Proof.
  intros Hsucc Hmult.
  assert (Hbase : 0 <= basePoints sim thr).
  { apply Math_round_nonneg, mul_nonneg; [now apply sub_nonneg | exact I]. }
  assert (Hround : 0 <= roundNumber h) by (unfold roundNumber; lia).
  assert (Hbonus : 0 <= bonusPoints (basePoints sim thr) (roundNumber h)).
  { apply Math_round_nonneg, mul_nonneg; [now apply of_Z_nonneg|].
    apply mul_nonneg; [now apply of_Z_nonneg | exact I]. }
  apply Math_round_nonneg, mul_nonneg.
  - apply of_Z_nonneg. lia.
  - now apply positive_nonneg.
Qed.

(** ** The difficulties on offer *)

Lemma custom_percentages :
  forallb (fun v => match handleCustomSubmit v with
                    | Some d => validDifficulty d
                                && (multiplier d =? 1)%float
                    | None => false
                    end)
          (map Z.of_nat (seq 1 100)) = true.
Proof. vm_compute. reflexivity. Qed.

Lemma handleCustomSubmit_valid (v : Z) :
  1 <= v <= 100 ->
  exists d, handleCustomSubmit v = Some d /\ validDifficulty d = true.
Proof.
  intros Hv.
  pose proof custom_percentages as Hall.
  rewrite forallb_forall in Hall.
  specialize (Hall v).
  assert (Hin : In v (map Z.of_nat (seq 1 100))).
  { apply in_map_iff. exists (Z.to_nat v). split; [lia|].
    apply in_seq. lia. }
  specialize (Hall Hin).
  destruct (handleCustomSubmit v) as [d|]; [|discriminate].
  apply andb_prop in Hall. destruct Hall as [Hall _]. eauto.
Qed.

Lemma handleCustomSubmit_some (v : Z) (d : Difficulty) :
  handleCustomSubmit v = Some d -> 1 <= v <= 100.
Proof.
  unfold handleCustomSubmit.
  destruct (Z.gtb_spec v 0); [|discriminate].
  destruct (Z.leb_spec v 100); [lia | discriminate].
Qed.

Lemma selected_valid (c : Choice) (d : Difficulty) :
  selected c = Some d -> validDifficulty d = true.
Proof.
  destruct c as [index|v]; cbn [selected].
  - destruct index as [|[|[|index]]]; cbn [nth_error predefinedDifficulties];
      try (intro H; injection H as <-; vm_compute; reflexivity).
    destruct index; discriminate.
  - intro Hsel.
    destruct (handleCustomSubmit_valid v (handleCustomSubmit_some v d Hsel))
      as (d' & Hd' & Hvalid).
    congruence.
Qed.

Lemma selected_multiplier (c : Choice) (d : Difficulty) :
  selected c = Some d -> (0 <? multiplier d)%float = true.
Proof.
  intro H. apply selected_valid in H.
  unfold validDifficulty in H. apply andb_prop in H. tauto.
Qed.

(** X2.  Every difficulty that [onSelect] can be called with has a
    threshold in (0, 1] and a positive multiplier: the three levels as
    listed, and the custom form only for a percentage from 1 to 100; any
    other percentage selects nothing. *)
Theorem X2_selected_difficulty_valid (c : Choice) :
  (forall d, selected c = Some d -> validDifficulty d = true)
  /\ (forall v, c = Custom v ->
                (1 <= v <= 100 <-> selected c <> None)).
Proof.
  split; [apply selected_valid|].
  intros v ->. cbn [selected]. split.
  - intros Hv. destruct (handleCustomSubmit_valid v Hv) as (d' & Hd' & _).
    congruence.
  - destruct (handleCustomSubmit v) as [d|] eqn:Hd; [|congruence].
    intros _. now apply (handleCustomSubmit_some v d).
Qed.

Lemma X2_selected_difficulty_valid_witness :
  validDifficulty (mkDifficulty "커스텀" (of_Z 30 / 100)%float 1.0) = true
  /\ selected (Custom 30) <> None.
Proof.
  split.
  - apply (proj1 (X2_selected_difficulty_valid (Custom 30))).
    vm_compute. reflexivity.
  - apply (proj2 (X2_selected_difficulty_valid (Custom 30)) 30 eq_refl). lia.
Defined.
(** ** The history as a ledger of the session *)

Lemma traced_snoc {S : Type} (next : S -> GameAttempt -> S)
      (seen : GameAttempt -> S) (h : list GameAttempt) (a : GameAttempt) :
  forall s,
    traced next seen s (h ++ [a])
    <-> traced next seen s h /\ seen a = fold_left next h s.
Proof.
  induction h as [|b h IH]; intro s; cbn [List.app traced fold_left].
  - tauto.
  - rewrite IH. tauto.
Qed.

Lemma replay_snoc (h : list GameAttempt) (a : GameAttempt) :
  replay (h ++ [a]) = nextScore (replay h) a.
Proof. unfold replay. now rewrite fold_left_app. Qed.

Lemma endWord_snoc (w : string) (h : list GameAttempt) (a : GameAttempt) :
  endWord w (h ++ [a]) = nextWord (endWord w h) a.
Proof. unfold endWord. now rewrite fold_left_app. Qed.

Lemma endThreshold_snoc (t : float) (h : list GameAttempt)
      (a : GameAttempt) :
  endThreshold t (h ++ [a]) = nextThreshold (endThreshold t h) a.
Proof. unfold endThreshold. now rewrite fold_left_app. Qed.

Lemma failuresAtEnd_snoc (h : list GameAttempt) (a : GameAttempt) :
  failuresAtEnd (h ++ [a])
  = if success a then 0%nat else Datatypes.S (failuresAtEnd h).
Proof. unfold failuresAtEnd. now rewrite rev_unit. Qed.

Lemma endThreshold_raised (h : list GameAttempt) :
  forall t,
    endThreshold t h
    = Nat.iter (successes h) (fun prev => (prev + 0.01)%float) t.
Proof.
  unfold endThreshold, successes.
  induction h as [|a h IH]; intro t; cbn [fold_left filter]; [reflexivity|].
  rewrite IH. unfold nextThreshold.
  destruct (success a); [|reflexivity].
  cbn [List.length]. now rewrite Nat.iter_succ_r.
Qed.

Lemma find_last_success (h : list GameAttempt) (w : string) :
  match find success (rev h) with
  | Some a => newWord a
  | None => w
  end = endWord w h.
Proof.
  induction h as [|a h IH] using rev_ind; [reflexivity|].
  rewrite rev_unit, endWord_snoc. cbn [find]. unfold nextWord.
  destruct (success a); [reflexivity | exact IH].
Qed.

Lemma Ledger_mounted : Ledger mounted.
Proof.
  constructor; unfold mounted, initial; fields;
    try (cbn; tauto); try discriminate; try reflexivity; auto.
  intros [H|H]; [congruence | discriminate].
Qed.

Lemma recorded_timeout (start prev : string) (t : float) :
  recorded start (mkAttempt prev timeoutMarker 0 false t (-1000)).
Proof.
  unfold recorded; fields.
  repeat split; try reflexivity; try discriminate. right. now split.
Qed.

Lemma Ledger_timeout (m : Machine) :
  Inv m -> Ledger m ->
  gameState (app m) = PLAYING -> isLoading (app m) = false ->
  Ledger (mkMachine (handleTimeout (app m)) (call m) (startingWord m)).
Proof.
  intros HI [Ld Lr Ls Ll Lw Lc Lrec Lp] Hplay Hload.
  pose proof (inv_call m HI) as Hc.
  destruct m as [st c sw]; fields.
  assert (Hsel : gameState st <> SELECTING_DIFFICULTY) by congruence.
  specialize (Ll Hsel). specialize (Lw Hsel).
  destruct (Ld (or_introl Hsel)) as (ch & d & Hch & Hd & Ht).
  destruct c as [| |k];
    [|destruct Hc as (? & ? & ?); congruence
     |destruct Hc as (? & ? & ?); congruence].
  assert (Hnew : forall gs, gs <> SELECTING_DIFFICULTY \/ NoCall = RandomWordCall ->
     exists c0 d0, selected c0 = Some d0 /\ difficulty st = Some d0 /\
       currentThreshold st = endThreshold (threshold d0)
         (history st ++ [mkAttempt (currentWord st) timeoutMarker 0 false
                              (currentThreshold st) (-1000)])).
  { intros gs _. exists ch, d. repeat split; auto.
    rewrite endThreshold_snoc. exact Ht. }
  unfold handleTimeout.
  destruct (Z.leb_spec (lives st - 1) 0) as [Hz|Hz];
    constructor; unfold_handlers;
    rewrite ?replay_snoc, ?failuresAtEnd_snoc, ?endWord_snoc;
    unfold nextScore, nextWord; fields;
    try (intros; lia); try congruence; auto.
  all: try (intros d0 Hd0; apply traced_snoc; split;
            [now apply Lr | rewrite Hd in Hd0; injection Hd0 as <-; exact Ht]).
  all: try (apply traced_snoc; split; [exact Lc | exact Lw]).
  all: try (apply Forall_app; split;
            [exact Lrec | constructor; [apply recorded_timeout | constructor]]).
  all: apply Hnew.
Qed.

Lemma Ledger_tick (m m' : Machine) :
  Inv m -> Ledger m -> step m IntervalTick = Some m' -> Ledger m'.
Proof.
  intros HI HL Hstep. cbn [step] in Hstep. unfold intervalDelay in Hstep.
  destruct (GameState_eqb (gameState (app m)) PLAYING) eqn:Hplay;
    [|discriminate].
  apply GameState_eqb_eq in Hplay.
  destruct (isLoading (app m)) eqn:Hload; [discriminate|].
  cbn [negb andb] in Hstep. injection Hstep as <-.
  unfold intervalCallback.
  destruct (Z.leb_spec (timeLeft (app m)) 1) as [Hz|Hz].
  - now apply Ledger_timeout.
  - destruct HL as [Ld Lr Ls Ll Lw Lc Lrec Lp].
    destruct m as [st c sw]; fields.
    constructor; unfold_handlers; auto.
Qed.

Lemma Ledger_select (m m' : Machine) (choice : Choice) :
  Inv m -> Ledger m -> step m (SelectDifficulty choice) = Some m' ->
  Ledger m'.
Proof.
  intros HI HL Hstep. cbn [step] in Hstep.
  destruct (selected choice) as [d|] eqn:Hch; [|discriminate].
  destruct (GameState_eqb (gameState (app m)) SELECTING_DIFFICULTY) eqn:Hsel;
    [|discriminate].
  apply GameState_eqb_eq in Hsel.
  destruct (isLoading (app m)) eqn:Hload; [discriminate|].
  cbn [negb andb] in Hstep. injection Hstep as <-.
  destruct HL as [Ld Lr Ls Ll Lw Lc Lrec Lp].
  destruct m as [st c sw]; fields.
  constructor; unfold_handlers;
    try (cbn; tauto); try congruence; auto.
  intros _. exists choice, d. repeat split; auto.
Qed.

Lemma Ledger_randomWord (m m' : Machine) (r : Settled string) :
  Inv m -> Ledger m -> step m (RandomWordSettled r) = Some m' -> Ledger m'.
Proof.
  intros HI HL Hstep. cbn [step] in Hstep.
  pose proof (inv_call m HI) as Hc.
  pose proof (inv_selecting m HI) as Hs.
  destruct HL as [Ld Lr Ls Ll Lw Lc Lrec Lp].
  destruct m as [st c sw]; fields.
  destruct c as [| |k]; try discriminate.
  injection Hstep as <-. destruct Hc as (Hload & Hsel & Hthree).
  destruct (Hs Hsel) as [Hw Hh].
  destruct (Ld (or_intror eq_refl)) as (ch & d & Hch & Hd & Ht).
  rewrite Hh in *.
  destruct r as [w|msg];
    constructor; unfold_handlers; rewrite ?Hh;
    try (cbn; tauto); try congruence; auto.
  all: try (intros _; exists ch, d; repeat split; auto; now rewrite Hh in Ht).
Qed.

Lemma Ledger_restart (m m' : Machine) :
  Inv m -> Ledger m -> step m Restart = Some m' -> Ledger m'.
Proof.
  intros HI HL Hstep. cbn [step] in Hstep.
  destruct (GameState_eqb (gameState (app m)) GAME_OVER) eqn:Hover;
    [|discriminate].
  apply GameState_eqb_eq in Hover. injection Hstep as <-.
  pose proof (inv_call m HI) as Hc.
  destruct HL as [Ld Lr Ls Ll Lw Lc Lrec Lp].
  destruct m as [st c sw]; fields.
  destruct c as [| |k];
    [|destruct Hc as (? & ? & ?); congruence
     |destruct Hc as (? & ? & ?); congruence].
  constructor; unfold_handlers;
    try (cbn; tauto); try congruence; auto.
  intros [H|H]; [congruence | discriminate].
Qed.

Lemma Ledger_submit (m m' : Machine) (w : string) :
  Inv m -> Ledger m -> step m (SubmitWord w) = Some m' -> Ledger m'.
Proof.
  intros HI HL Hstep.
  pose proof (inv_call m HI) as Hc.
  apply step_SubmitWord in Hstep.
  destruct Hstep as (Hplay & Hload
                     & [(st' & Hbegin & ->)|(st' & k & Hbegin & ->)]).
  - apply handleSubmitWord_begin_returned in Hbegin.
    destruct HL as [Ld Lr Ls Ll Lw Lc Lrec Lp].
    destruct m as [st c sw]; fields.
    destruct Hbegin as [->| ->];
      constructor; unfold_handlers; auto.
  - apply handleSubmitWord_begin_awaiting in Hbegin.
    destruct Hbegin as (-> & Hdiff & Hcw & Hhas & Hk).
    destruct HL as [Ld Lr Ls Ll Lw Lc Lrec Lp].
    destruct m as [st c sw]; fields.
    constructor; unfold_handlers; auto.
    + intros [H|H]; [|discriminate]. apply Ld. now left.
    + intros k0 Hk0. injection Hk0 as <-. rewrite Hk. fields.
      intro Heq. apply has_false in Hhas. apply Hhas.
      unfold allPreviouslyUsedWords. apply in_or_app. right.
      left. symmetry. exact Heq.
Qed.

Lemma Ledger_similarity (m m' : Machine) (parsed : Settled float) :
  Inv m -> Ledger m -> step m (SimilaritySettled parsed) = Some m' ->
  Ledger m'.
Proof.
  intros HI HL Hstep. cbn [step] in Hstep.
  pose proof (inv_call m HI) as Hc.
  pose proof (inv_first m HI) as Hf.
  destruct HL as [Ld Lr Ls Ll Lw Lc Lrec Lp].
  destruct m as [st c sw]; fields.
  destruct c as [| |k]; try discriminate.
  injection Hstep as <-.
  destruct Hc as (Hload & Hplay & Hcw & Hdiff & Hthr & Hhist & Hlives & Hnew).
  assert (Hsel : gameState st <> SELECTING_DIFFICULTY) by congruence.
  specialize (Hf Hsel). specialize (Ll Hsel). specialize (Lw Hsel).
  specialize (Lp k eq_refl). rewrite Hf in Lp.
  destruct (Ld (or_introl Hsel)) as (ch & d & Hch & Hd & Ht).
  unfold handleSubmitWord_resume.
  destruct (calculateSimilarity parsed) as [sim|msg] eqn:Hsim.
  - destruct (calculateSimilarity_range parsed sim Hsim)
      as (_ & Hlo & Hhi).
    destruct (cl_currentThreshold k <=? sim)%float eqn:Hsucc;
      [|destruct (Z.leb_spec (cl_lives k - 1) 0)];
      constructor; unfold_handlers;
      rewrite ?replay_snoc, ?failuresAtEnd_snoc, ?endWord_snoc;
      unfold nextScore, nextWord; fields;
      try (intros; lia); try congruence; auto.
    all: try (intros _; exists ch, d; repeat split; auto;
              rewrite endThreshold_snoc; unfold nextThreshold; fields;
              now rewrite Ht).
    all: try (intros d0 Hd0; apply traced_snoc; split;
              [now apply Lr
              |fields; rewrite Hd in Hd0; injection Hd0 as <-;
               rewrite Hthr; exact Ht]).
    all: try (apply traced_snoc; split;
              [exact Lc | fields; rewrite Hcw; exact Lw]).
    all: apply Forall_app; split;
      [exact Lrec | constructor; [|constructor]];
      unfold recorded; fields;
      repeat split; try assumption; try discriminate; try reflexivity;
      try (now left).
    apply totalPoints_nonneg; [exact Hsucc|].
    rewrite Hd in Hdiff. injection Hdiff as <-.
    now apply (selected_multiplier ch).
  - constructor; unfold_handlers; auto. discriminate.
Qed.

Lemma Ledger_step (m m' : Machine) (ev : Event) :
  Inv m -> Ledger m -> step m ev = Some m' -> Ledger m'.
Proof.
  destruct ev.
  - apply Ledger_select.
  - apply Ledger_randomWord.
  - apply Ledger_tick.
  - apply Ledger_submit.
  - apply Ledger_similarity.
  - apply Ledger_restart.
Qed.

Lemma Ledger_run (evs : list Event) :
  forall m m', Inv m -> Ledger m -> run m evs = Some m' -> Ledger m'.
Proof.
  induction evs as [|ev evs IH]; intros m m' HI HL Hrun; cbn [run] in Hrun.
  - now injection Hrun as <-.
  - destruct (step m ev) as [m1|] eqn:Hstep; [|discriminate].
    eapply IH; [| |exact Hrun].
    + eapply Inv_step; eassumption.
    + eapply Ledger_step; eassumption.
Qed.

Lemma Ledger_reachable (m : Machine) : reachable m -> Ledger m.
Proof.
  intros [evs Hrun].
  eapply Ledger_run; [exact Inv_mounted | exact Ledger_mounted | exact Hrun].
Qed.

Lemma reachable_played : reachable (after played).
Proof. apply reachable_after. vm_compute. discriminate. Qed.

(** X3.  While a session is on (playing or over), [difficulty] holds one
    of the difficulties the selector offers; in particular the
    [difficulty!.name] that the game screen is rendered with never reads
    a null. *)
Theorem X3_difficulty_set (m : Machine) :
  reachable m ->
  gameState (app m) <> SELECTING_DIFFICULTY ->
  exists c d, selected c = Some d /\ difficulty (app m) = Some d.
Proof.
  intros Hr Hsel.
  destruct (led_difficulty m (Ledger_reachable m Hr) (or_introl Hsel))
    as (c & d & Hc & Hd & _).
  eauto.
Qed.

Lemma X3_difficulty_set_witness :
  exists c d, selected c = Some d
              /\ difficulty (app (after played)) = Some d.
Proof.
  assert (Hsel : gameState (app (after played)) <> SELECTING_DIFFICULTY)
    by (vm_compute; discriminate).
  exact (X3_difficulty_set (after played) reachable_played Hsel).
Defined.

(** X4.  While a session is on, the current threshold is the threshold of
    the selected difficulty with 0.01 added once for every accepted word
    of the history (in floating point, one addition after the other), and
    every attempt of the history records the threshold that was in force
    when it was made. *)
Theorem X4_threshold_raised (m : Machine) (d : Difficulty) :
  reachable m ->
  gameState (app m) <> SELECTING_DIFFICULTY ->
  difficulty (app m) = Some d ->
  currentThreshold (app m)
  = Nat.iter (successes (history (app m)))
             (fun prev => (prev + 0.01)%float) (threshold d)
  /\ traced nextThreshold requiredThreshold (threshold d)
            (history (app m)).
Proof.
  intros Hr Hsel Hd. pose proof (Ledger_reachable m Hr) as HL.
  destruct (led_difficulty m HL (or_introl Hsel)) as (c & d' & _ & Hd' & Ht).
  rewrite Hd in Hd'. injection Hd' as <-.
  split; [now rewrite <- endThreshold_raised | now apply (led_required m HL)].
Qed.

Lemma X4_threshold_raised_witness :
  currentThreshold (app (after played)) = ((0.5 + 0.01) + 0.01)%float.
Proof.
  assert (Hsel : gameState (app (after played)) <> SELECTING_DIFFICULTY)
    by (vm_compute; discriminate).
  assert (Hd : difficulty (app (after played)) = Some normal)
    by (vm_compute; reflexivity).
  destruct (X4_threshold_raised (after played) normal reachable_played
                                Hsel Hd) as [H _].
  rewrite H. vm_compute. reflexivity.
Defined.

Lemma replay_nonneg (start : string) (h : list GameAttempt) :
  Forall (recorded start) h -> 0 <= replay h.
Proof.
  induction h as [|a h IH] using rev_ind; intro Hall; [cbn; lia|].
  apply Forall_app in Hall. destruct Hall as [Hh Ha].
  apply Forall_inv in Ha. destruct Ha as (_ & _ & Hs & _).
  rewrite replay_snoc. unfold nextScore.
  destruct (success a); [|lia].
  specialize (IH Hh). destruct (Hs eq_refl) as (_ & _ & Hp). lia.
Qed.

(** X5.  The score is a function of the history alone: starting from 0,
    every accepted word adds its points and every failure or timeout
    takes its 1000 points off without going below 0. *)
Theorem X5_score_is_replay (m : Machine) :
  reachable m -> score (app m) = replay (history (app m)).
Proof.
  intro Hr. exact (led_score m (Ledger_reachable m Hr)).
Qed.

Lemma X5_score_is_replay_witness :
  score (app (after played)) = replay (history (app (after played))).
Proof. exact (X5_score_is_replay (after played) reachable_played). Defined.

(** X6.  The score is never negative, and the points of an accepted word
    are never negative: the difference of a similarity and a threshold it
    reaches, the round bonus and a multiplier on offer are all rounded
    from non-negative floats. *)
Theorem X6_score_never_negative (m : Machine) :
  reachable m ->
  0 <= score (app m)
  /\ (forall a, In a (history (app m)) -> success a = true ->
                0 <= points a).
Proof.
  intro Hr. pose proof (Ledger_reachable m Hr) as HL.
  pose proof (led_recorded m HL) as Hrec.
  split.
  - rewrite (led_score m HL). now apply (replay_nonneg (startingWord m)).
  - intros a Hin Hs. rewrite Forall_forall in Hrec.
    destruct (Hrec a Hin) as (_ & _ & Hsucc & _).
    now destruct (Hsucc Hs) as (_ & _ & Hp).
Qed.

Lemma X6_score_never_negative_witness :
  0 <= score (app (after played)).
Proof.
  exact (proj1 (X6_score_never_negative (after played) reachable_played)).
Defined.

(** X7.  While a session is on, the lives are 3 minus the number of
    failures and timeouts since the last accepted word (or since the
    start); hence the game is over exactly when the last three attempts
    all failed. *)
Theorem X7_lives_count_failures (m : Machine) :
  reachable m ->
  gameState (app m) <> SELECTING_DIFFICULTY ->
  lives (app m) = 3 - Z.of_nat (failuresAtEnd (history (app m)))
  /\ (gameState (app m) = GAME_OVER
      <-> failuresAtEnd (history (app m)) = 3%nat).
Proof.
  intros Hr Hsel.
  pose proof (led_lives m (Ledger_reachable m Hr) Hsel) as Hl.
  pose proof (Inv_reachable m Hr) as HI.
  split; [exact Hl|]. split.
  - intro Hover. pose proof (inv_over m HI Hover). lia.
  - intro H3. destruct (gameState (app m)) eqn:Hgs;
      [congruence| |reflexivity].
    pose proof (inv_playing m HI Hgs). lia.
Qed.

Lemma X7_lives_count_failures_witness :
  lives (app (after threeFailures)) = 3 - 3
  /\ gameState (app (after threeFailures)) = GAME_OVER.
Proof.
  assert (Hr : reachable (after threeFailures))
    by (apply reachable_after; vm_compute; discriminate).
  assert (Hsel : gameState (app (after threeFailures))
                 <> SELECTING_DIFFICULTY)
    by (vm_compute; discriminate).
  destruct (X7_lives_count_failures (after threeFailures) Hr Hsel)
    as [Hl Hiff].
  split.
  - rewrite Hl. vm_compute. reflexivity.
  - apply Hiff. vm_compute. reflexivity.
Defined.

(** X8.  The attempts of a history chain up: each one records as
    [previousWord] the word that was current when it was made, the
    starting word at first and then the latest accepted word; and while a
    session is on, the current word is where that chain ends. *)
Theorem X8_history_chains (m : Machine) :
  reachable m ->
  traced nextWord previousWord (startingWord m) (history (app m))
  /\ (gameState (app m) <> SELECTING_DIFFICULTY ->
      currentWord (app m) = endWord (startingWord m) (history (app m))).
Proof.
  intro Hr. pose proof (Ledger_reachable m Hr) as HL.
  split; [exact (led_chain m HL) | exact (led_word m HL)].
Qed.

Lemma X8_history_chains_witness :
  map previousWord (history (app (after played)))
  = ["바다"; "파도"; "파도"; "파도"]
  /\ currentWord (app (after played)) = "해변".
Proof.
  destruct (X8_history_chains (after played) reachable_played) as [_ Hw].
  split; [vm_compute; reflexivity|].
  rewrite Hw; [vm_compute; reflexivity | vm_compute; discriminate].
Defined.

(** X9.  Every attempt of a history carries a similarity between -1 and
    1; an accepted one reached the threshold it records, is not the
    starting word and has non-negative points; a failed one has -1000
    points and either stayed below the threshold it records or is a
    timeout (marker word, similarity 0). *)
Theorem X9_attempts_recorded (m : Machine) (a : GameAttempt) :
  reachable m ->
  In a (history (app m)) ->
  recorded (startingWord m) a.
Proof.
  intros Hr Hin.
  pose proof (led_recorded m (Ledger_reachable m Hr)) as Hrec.
  rewrite Forall_forall in Hrec. now apply Hrec.
Qed.

Lemma X9_attempts_recorded_witness :
  recorded "바다" (mkAttempt "바다" "파도" 0.65 true 0.5 1800).
Proof.
  apply (X9_attempts_recorded (after played) _ reachable_played).
  vm_compute. left. reflexivity.
Defined.

Lemma endWord_start (start : string) (h : list GameAttempt) :
  Forall (recorded start) h ->
  (endWord start h =? start)%string = negb (existsb success h).
Proof.
  induction h as [|a h IH] using rev_ind; intro Hall.
  - cbn. apply String.eqb_refl.
  - apply Forall_app in Hall. destruct Hall as [Hh Ha].
    apply Forall_inv in Ha. destruct Ha as (_ & _ & Hs & _).
    rewrite endWord_snoc, existsb_app. cbn [existsb]. unfold nextWord.
    destruct (success a).
    + destruct (Hs eq_refl) as (_ & Hne & _).
      rewrite orb_true_r. cbn [negb]. now apply String.eqb_neq.
    + rewrite !orb_false_r. now apply IH.
Qed.

(** X10.  On the game-over screen of a reachable session with a non-empty
    history, the final similarity is computed between the word the
    session started from and the word that was current at the end; the
    oracle is asked exactly when some word was accepted, and the value is
    set to 1 without a call otherwise. *)
Theorem X10_final_similarity_words (m : Machine) :
  reachable m ->
  history (app m) <> [] ->
  GameOver.calculateFinalWordSimilarity (history (app m))
  = if existsb success (history (app m))
    then GameOver.AskOracle (startingWord m) (currentWord (app m))
    else GameOver.SetTo 1.
Proof.
  intros Hr Hne.
  pose proof (Inv_reachable m Hr) as HI.
  pose proof (Ledger_reachable m Hr) as HL.
  assert (Hsel : gameState (app m) <> SELECTING_DIFFICULTY).
  { intro Hsel. now destruct (inv_selecting m HI Hsel). }
  pose proof (inv_first m HI Hsel) as Hf.
  pose proof (led_word m HL Hsel) as Hw.
  pose proof (endWord_start _ _ (led_recorded m HL)) as Hend.
  unfold GameOver.calculateFinalWordSimilarity.
  unfold firstWordOf in Hf.
  destruct (history (app m)) as [|first rest] eqn:Hh; [congruence|].
  rewrite <- Hh in *. cbv zeta.
  rewrite find_last_success, Hf, <- Hw.
  rewrite <- Hw in Hend. rewrite String.eqb_sym, Hend, negb_involutive.
  reflexivity.
Qed.

Lemma X10_final_similarity_words_witness :
  GameOver.calculateFinalWordSimilarity (history (app (after played)))
  = GameOver.AskOracle "바다" "해변"
  /\ GameOver.calculateFinalWordSimilarity
       (history (app (after threeFailures)))
     = GameOver.SetTo 1.
Proof.
  assert (Hr : reachable (after threeFailures))
    by (apply reachable_after; vm_compute; discriminate).
  split.
  - rewrite (X10_final_similarity_words (after played) reachable_played);
      [vm_compute; reflexivity | vm_compute; discriminate].
  - rewrite (X10_final_similarity_words (after threeFailures) Hr);
      [vm_compute; reflexivity | vm_compute; discriminate].
Defined.

(** ** Rounds and the interval *)

Lemma setTimeLeft_same (st : State) : setTimeLeft (timeLeft st) st = st.
Proof. now destruct st. Qed.

Lemma setTimeLeft_twice (a b : Z) (st : State) :
  setTimeLeft a (setTimeLeft b st) = setTimeLeft a st.
Proof. reflexivity. Qed.

Lemma ticks_count_down (n : nat) :
  forall m,
    gameState (app m) = PLAYING ->
    isLoading (app m) = false ->
    Z.of_nat n < timeLeft (app m) ->
    run m (repeat IntervalTick n)
    = Some (mkMachine (setTimeLeft (timeLeft (app m) - Z.of_nat n) (app m))
                      (call m) (startingWord m)).
Proof.
  induction n as [|n IH]; intros m Hplay Hload Hlt.
  - cbn [repeat run]. rewrite Z.sub_0_r, setTimeLeft_same. now destruct m.
  - cbn [repeat run step]. unfold intervalDelay.
    rewrite Hplay, Hload. cbn [GameState_eqb negb andb].
    unfold intervalCallback.
    destruct (Z.leb_spec (timeLeft (app m)) 1); [lia|].
    rewrite IH by (cbn [app gameState isLoading timeLeft setTimeLeft];
                   auto; lia).
    cbn [app call startingWord timeLeft setTimeLeft].
    change (setTimeLeft ?a (mkState ?g ?d ?t ?s ?w ?h ?l ?i ?e ?b))
      with (mkState g d t s w h l i e a).
    unfold setTimeLeft.
    replace (timeLeft (app m) - 1 - Z.of_nat n)
      with (timeLeft (app m) - Z.of_nat (Datatypes.S n)) by lia.
    reflexivity.
Qed.

(** X11.  While playing with no submission under way, a round with [t]
    seconds left only counts down during the next [t - 1] ticks and runs
    the timeout on tick [t]: a round that starts at 30 times out on the
    30th tick, not before. *)
Theorem X11_round_lasts_timeLeft_ticks (m : Machine) (n : nat) :
  gameState (app m) = PLAYING ->
  isLoading (app m) = false ->
  1 <= timeLeft (app m) ->
  (Z.of_nat n < timeLeft (app m) ->
   run m (repeat IntervalTick n)
   = Some (mkMachine (setTimeLeft (timeLeft (app m) - Z.of_nat n) (app m))
                     (call m) (startingWord m)))
  /\ (Z.of_nat n = timeLeft (app m) ->
      run m (repeat IntervalTick n)
      = Some (mkMachine (handleTimeout (setTimeLeft 1 (app m)))
                        (call m) (startingWord m))).
Proof.
  intros Hplay Hload Hone. split; [now apply ticks_count_down|].
  intro Hn. destruct n as [|n]; [lia|].
  replace (Datatypes.S n) with (n + 1)%nat by lia.
  rewrite repeat_app.
  assert (Hrun : forall evs1 evs2 m0 m1,
             run m0 evs1 = Some m1 ->
             run m0 (evs1 ++ evs2) = run m1 evs2).
  { induction evs1 as [|e evs1 IH1]; intros evs2 m0 m1 H0;
      cbn [run List.app] in *.
    - now injection H0 as ->.
    - destruct (step m0 e); [now apply IH1 | discriminate]. }
  rewrite (Hrun _ _ _ _ (ticks_count_down n m Hplay Hload ltac:(lia))).
  cbn [repeat run step]. unfold intervalDelay. unfold_handlers.
  rewrite Hplay, Hload. cbn [GameState_eqb negb andb].
  unfold intervalCallback. unfold_handlers.
  replace (timeLeft (app m) - Z.of_nat n) with 1 by lia.
  reflexivity.
Qed.

Lemma X11_round_lasts_timeLeft_ticks_witness :
  run (after started) (repeat IntervalTick 30)
  = Some (mkMachine (handleTimeout (setTimeLeft 1 (app (after started))))
                    (call (after started)) (startingWord (after started))).
Proof.
  apply (X11_round_lasts_timeLeft_ticks (after started) 30).
  - vm_compute. reflexivity.
  - vm_compute. reflexivity.
  - vm_compute. discriminate.
  - vm_compute. reflexivity.
Defined.

(** X12.  No event shortens a history: a step either leaves it as it is,
    appends one attempt to it, or (a start or a restart) empties it. *)
Theorem X12_history_append_only (m m' : Machine) (ev : Event) :
  step m ev = Some m' ->
  (exists added,
      history (app m') = (history (app m) ++ added)%list
      /\ (List.length added <= 1)%nat)
  \/ (history (app m') = []
      /\ ((exists c, ev = SelectDifficulty c) \/ ev = Restart)).
Proof.
  intro Hstep.
  assert (Hsame : forall st',
             history st' = history (app m) ->
             exists added,
               history st' = (history (app m) ++ added)%list
               /\ (List.length added <= 1)%nat).
  { intros st' H. exists []. rewrite app_nil_r.
    split; [exact H | cbn; lia]. }
  destruct ev; cbn [step] in Hstep.
  - right. destruct (selected c); [|discriminate].
    destruct (_ && _); [|discriminate]. injection Hstep as <-.
    unfold_handlers. eauto.
  - left. apply Hsame. destruct (call m); try discriminate.
    injection Hstep as <-. destruct firstWord; unfold_handlers; reflexivity.
  - left. destruct (intervalDelay (app m)); [|discriminate].
    injection Hstep as <-. unfold intervalCallback, handleTimeout.
    destruct (timeLeft (app m) <=? 1);
      [destruct (lives (app m) - 1 <=? 0)|];
      unfold_handlers; try (apply Hsame; reflexivity);
      (eexists; split; [reflexivity | cbn; lia]).
  - left. apply Hsame. rewrite submitWord_guard in Hstep.
    destruct (_ && _); [|discriminate]. cbv beta iota in Hstep.
    destruct (handleSubmitWord_begin trimmed (app m)) as [st'|st' k] eqn:Hb;
      injection Hstep as <-; cbn [app].
    + apply handleSubmitWord_begin_returned in Hb. now destruct Hb as [->| ->].
    + apply handleSubmitWord_begin_awaiting in Hb. now destruct Hb as (-> & _).
  - left. destruct (call m) as [| |k]; try discriminate.
    injection Hstep as <-. unfold handleSubmitWord_resume.
    destruct (calculateSimilarity parsed) as [sim|msg];
      [destruct (cl_currentThreshold k <=? sim)%float;
       [|destruct (cl_lives k - 1 <=? 0)]|];
      unfold_handlers; try (apply Hsame; reflexivity);
      (eexists; split; [reflexivity | cbn; lia]).
  - right. destruct (GameState_eqb _ _); [|discriminate].
    injection Hstep as <-. unfold_handlers. eauto.
Qed.

Lemma X12_history_append_only_witness :
  exists added,
    history (app (after (inFlight
                           ++ [SimilaritySettled (Fulfilled 0.65%float)])))
    = (history (app (after inFlight)) ++ added)%list
    /\ (List.length added <= 1)%nat.
Proof.
  assert (Hstep : step (after inFlight)
                       (SimilaritySettled (Fulfilled 0.65%float))
                  = Some (after (inFlight
                                   ++ [SimilaritySettled
                                         (Fulfilled 0.65%float)])))
    by (vm_compute; reflexivity).
  destruct (X12_history_append_only _ _ _ Hstep)
    as [H|[_ [[c Hc]|Hc]]]; [exact H | discriminate Hc | discriminate Hc].
Defined.

(** X13.  A session whose starting word is empty is stuck: every
    submission returns at the first guard of [handleSubmitWord], with no
    error message, no oracle call and no change of state, so only the
    timeouts move such a session on.  The oracle delivering an empty word
    is all it takes to get there. *)
Theorem X13_empty_start_word_ignores_submissions :
  (forall m w m',
      currentWord (app m) = EmptyString ->
      step m (SubmitWord w) = Some m' ->
      m' = m)
  /\ (exists m,
         run mounted [SelectDifficulty (Level 1);
                      RandomWordSettled (Fulfilled EmptyString)] = Some m
         /\ gameState (app m) = PLAYING
         /\ currentWord (app m) = EmptyString).
Proof.
  split.
  - intros m w m' Hcw Hstep. apply step_SubmitWord in Hstep.
    destruct Hstep as (_ & _ & [(st' & Hb & ->)|(st' & k & Hb & _)]).
    + unfold handleSubmitWord_begin in Hb. rewrite Hcw in Hb.
      destruct (difficulty (app m)); injection Hb as <-; now destruct m.
    + apply handleSubmitWord_begin_awaiting in Hb. tauto.
  - eexists. split; [vm_compute; reflexivity|]. split; reflexivity.
Qed.

Lemma X13_empty_start_word_ignores_submissions_witness :
  step (after [SelectDifficulty (Level 1);
               RandomWordSettled (Fulfilled EmptyString)])
       (SubmitWord "파도")
  = Some (after [SelectDifficulty (Level 1);
                 RandomWordSettled (Fulfilled EmptyString)]).
Proof.
  assert (Hstep : exists m', step (after [SelectDifficulty (Level 1);
               RandomWordSettled (Fulfilled EmptyString)])
       (SubmitWord "파도") = Some m') by (eexists; vm_compute; reflexivity).
  destruct Hstep as [m' Hstep]. rewrite Hstep. f_equal.
  apply (proj1 X13_empty_start_word_ignores_submissions _ "파도" m');
    [vm_compute; reflexivity | exact Hstep].
Defined.

(** ** More on the rank evaluator *)

Section RankEvaluatorMore.
Import Leaderboard.

Lemma firstIndex_some (p : LeaderboardEntry -> bool)
      (l : list LeaderboardEntry) :
  forall i,
    firstIndex p l = Some i ->
    (exists e, nth_error l i = Some e /\ p e = true)
    /\ (forall j e, (j < i)%nat -> nth_error l j = Some e -> p e = false).
Proof.
  induction l as [|a l IH]; intros i H; cbn [firstIndex] in H;
    [discriminate|].
  destruct (p a) eqn:Hpa.
  - injection H as <-. split; [exists a; now split | intros j e Hj; lia].
  - destruct (firstIndex p l) as [i'|]; [|discriminate].
    injection H as <-. destruct (IH i' eq_refl) as [(e & He & Hpe) Hbefore].
    split; [exists e; now split|].
    intros [|j] e' Hj He'; cbn [nth_error] in He'.
    + now injection He' as <-.
    + apply (Hbefore j); [lia | exact He'].
Qed.

Lemma firstIndex_none_all (p : LeaderboardEntry -> bool)
      (l : list LeaderboardEntry) :
  firstIndex p l = None -> forall e, In e l -> p e = false.
Proof.
  induction l as [|a l IH]; intros H e Hin; [destruct Hin|].
  cbn [firstIndex] in H. destruct (p a) eqn:Hpa; [discriminate|].
  destruct (firstIndex p l); [discriminate|].
  destruct Hin as [<-|Hin]; [exact Hpa | now apply IH].
Qed.

Lemma firstIndex_bound (p : LeaderboardEntry -> bool)
      (l : list LeaderboardEntry) (i : nat) :
  firstIndex p l = Some i -> (i < List.length l)%nat.
Proof.
  intro H. destruct (firstIndex_some p l i H) as [(e & He & _) _].
  apply nth_error_Some. congruence.
Qed.

(** X14.  What a rank means, for any leaderboard.  A rank [r] is given
    only to a positive score; every entry above place [r] has a strictly
    higher score; and either the entry at place [r] has a score the
    candidate reaches, or [r] is the free place just past a leaderboard of
    fewer than three entries.  No rank is given exactly when the score is
    not positive, or the leaderboard has three or more entries that are
    all strictly higher; so a positive score that is on the leaderboard
    is always ranked. *)
Theorem X14_rank_meaning (s : Z) (lb : list LeaderboardEntry) :
  (forall r,
      calculateRank s lb = Some r ->
      0 < s
      /\ 1 <= r <= Z.of_nat (List.length lb) + 1
      /\ (forall j e, Z.of_nat j < r - 1 -> nth_error lb j = Some e ->
                      s < score e)
      /\ ((exists e, nth_error lb (Z.to_nat (r - 1)) = Some e
                     /\ score e <= s)
          \/ (r = Z.of_nat (List.length lb) + 1
              /\ (List.length lb < 3)%nat)))
  /\ (calculateRank s lb = None
      <-> s <= 0
          \/ ((3 <= List.length lb)%nat
              /\ forall e, In e lb -> s < score e))
  /\ (forall e, 0 < s -> In e lb -> score e <= s ->
                calculateRank s lb <> None).
Proof.
  assert (Hnone : calculateRank s lb = None
                  <-> s <= 0
                      \/ ((3 <= List.length lb)%nat
                          /\ forall e, In e lb -> s < score e)).
  { rewrite calculateRank_refines. unfold rankContract.
    destruct (Z.leb_spec s 0) as [Hs|Hs]; [split; auto|].
    destruct (firstIndex _ lb) as [i|] eqn:Hfi.
    - split; [discriminate|]. intros [Hle|[_ Hall]]; [lia|].
      destruct (firstIndex_some _ _ _ Hfi) as [(e & He & Hpe) _].
      apply nth_error_In in He. specialize (Hall e He).
      rewrite Z.geb_leb in Hpe. apply Z.leb_le in Hpe. lia.
    - pose proof (firstIndex_none_all _ _ Hfi) as Hall.
      destruct (Nat.ltb_spec (List.length lb) 3) as [Hlen|Hlen].
      + split; [discriminate|]. intros [Hle|[H3 _]]; lia.
      + split; [|reflexivity]. intros _. right. split; [exact Hlen|].
        intros e He. specialize (Hall e He). cbn beta in Hall.
        rewrite Z.geb_leb in Hall. now apply Z.leb_gt in Hall. }
  split; [|split; [exact Hnone|]].
  - intros r. rewrite calculateRank_refines. unfold rankContract.
    destruct (Z.leb_spec s 0) as [Hs|Hs]; [discriminate|].
    destruct (firstIndex _ lb) as [i|] eqn:Hfi.
    + intro H. assert (Hr : r = 1 + Z.of_nat i) by congruence.
      subst r. clear H.
      pose proof (firstIndex_bound _ _ _ Hfi) as Hb.
      destruct (firstIndex_some _ _ _ Hfi) as [(e & He & Hpe) Hbefore].
      split; [exact Hs|]. split; [lia|]. split.
      * intros j e' Hj He'. specialize (Hbefore j e' ltac:(lia) He').
        cbn beta in Hbefore. rewrite Z.geb_leb in Hbefore.
        now apply Z.leb_gt in Hbefore.
      * left. exists e. replace (Z.to_nat (1 + Z.of_nat i - 1)) with i by lia.
        split; [exact He|]. rewrite Z.geb_leb in Hpe. now apply Z.leb_le.
    + pose proof (firstIndex_none_all _ _ Hfi) as Hall.
      destruct (Nat.ltb_spec (List.length lb) 3) as [Hlen|Hlen];
        [|discriminate].
      intro H.
      assert (Hr : r = Z.of_nat (List.length lb) + 1) by congruence.
      subst r. clear H.
      split; [exact Hs|]. split; [lia|]. split.
      * intros j e Hj He. apply nth_error_In in He.
        specialize (Hall e He). cbn beta in Hall.
        rewrite Z.geb_leb in Hall. now apply Z.leb_gt in Hall.
      * right. now split.
  - intros e Hs Hin Hle Hn. apply Hnone in Hn.
    destruct Hn as [Hn|[_ Hall]]; [lia|]. specialize (Hall e Hin). lia.
Qed.

Lemma X14_rank_meaning_witness :
  calculateRank 300 [mkEntry "a" 500; mkEntry "b" 300; mkEntry "c" 100]
  <> None.
Proof.
  apply (proj2 (proj2 (X14_rank_meaning
                         300 [mkEntry "a" 500; mkEntry "b" 300;
                              mkEntry "c" 100]))
               (mkEntry "b" 300)).
  - lia.
  - right. left. reflexivity.
  - cbn. lia.
Defined.

Lemma firstIndex_weaken (p q : LeaderboardEntry -> bool)
      (l : list LeaderboardEntry) :
  (forall e, p e = true -> q e = true) ->
  forall i, firstIndex p l = Some i ->
            exists j, firstIndex q l = Some j /\ (j <= i)%nat.
Proof.
  intro Hpq. induction l as [|a l IH]; intros i H; cbn [firstIndex] in *;
    [discriminate|].
  destruct (q a) eqn:Hqa; [exists 0%nat; split; [reflexivity | lia]|].
  destruct (p a) eqn:Hpa; [apply Hpq in Hpa; congruence|].
  destruct (firstIndex p l) as [i'|]; [|discriminate].
  injection H as <-. destruct (IH i' eq_refl) as (j & -> & Hj).
  exists (Datatypes.S j). split; [reflexivity | lia].
Qed.

(** X15.  A higher score never ranks worse: against the same
    leaderboard, whenever a score is ranked every score above it is
    ranked too, at the same place or a better one. *)
Theorem X15_rank_monotone (s1 s2 : Z) (lb : list LeaderboardEntry) (r1 : Z) :
  s1 <= s2 ->
  calculateRank s1 lb = Some r1 ->
  exists r2, calculateRank s2 lb = Some r2 /\ r2 <= r1.
Proof.
  intro Hle. rewrite !calculateRank_refines. unfold rankContract.
  destruct (Z.leb_spec s1 0) as [H1|H1]; [discriminate|].
  destruct (Z.leb_spec s2 0) as [H2|H2]; [lia|].
  assert (Hpq : forall e : LeaderboardEntry,
             (s1 >=? score e) = true -> (s2 >=? score e) = true).
  { intros e. rewrite !Z.geb_leb, !Z.leb_le. lia. }
  destruct (firstIndex (fun e => s1 >=? score e) lb) as [i|] eqn:H1i.
  - intro H. assert (Hr : r1 = 1 + Z.of_nat i) by congruence.
    subst r1. clear H.
    destruct (firstIndex_weaken _ _ lb Hpq i H1i) as (j & -> & Hj).
    eexists. split; [reflexivity | lia].
  - destruct (Nat.ltb_spec (List.length lb) 3) as [Hlen|Hlen];
      [|discriminate].
    intro H. assert (Hr : r1 = Z.of_nat (List.length lb) + 1) by congruence.
    subst r1. clear H.
    destruct (firstIndex (fun e => s2 >=? score e) lb) as [j|] eqn:H2j.
    + pose proof (firstIndex_bound _ _ _ H2j).
      eexists. split; [reflexivity | lia].
    + eexists. split; [reflexivity | lia].
Qed.

Lemma X15_rank_monotone_witness :
  exists r2,
    calculateRank 400 [mkEntry "a" 500; mkEntry "b" 300; mkEntry "c" 100]
    = Some r2
    /\ r2 <= 3.
Proof.
  apply (X15_rank_monotone 100 400).
  - lia.
  - reflexivity.
Defined.

Lemma firstIndex_sorted (s : Z) (lb : list LeaderboardEntry) :
  StronglySorted (fun a b => score b <= score a) lb ->
  match firstIndex (fun e => s >=? score e) lb with
  | Some i => higher s lb = i
  | None => higher s lb = List.length lb
  end.
Proof.
  unfold higher. induction 1 as [|a l Hsorted IH Hall];
    cbn [firstIndex filter List.length]; [reflexivity|].
  rewrite Z.geb_leb.
  destruct (Z.leb_spec (score a) s) as [Hle|Hgt].
  - replace (s <? score a) with false by (symmetry; apply Z.ltb_ge; lia).
    (* all later entries are no higher than [a] *)
    assert (Hnil : filter (fun e => s <? score e) l = []).
    { clear - Hall Hle.
      induction Hall as [|b l Hb Hl IHl]; cbn [filter]; [reflexivity|].
      replace (s <? score b) with false by (symmetry; apply Z.ltb_ge; lia).
      exact IHl. }
    now rewrite Hnil.
  - replace (s <? score a) with true by (symmetry; apply Z.ltb_lt; lia).
    cbn [List.length].
    destruct (firstIndex _ l) as [i|]; cbn [option_map]; now f_equal.
Qed.

(** X16.  On a leaderboard sorted from the highest score down, the rank
    of a score is one more than the number of entries that beat it. *)
Theorem X16_rank_counts_higher (s : Z) (lb : list LeaderboardEntry) (r : Z) :
  StronglySorted (fun a b => score b <= score a) lb ->
  calculateRank s lb = Some r ->
  r = 1 + Z.of_nat (higher s lb).
Proof.
  intros Hsorted. rewrite calculateRank_refines. unfold rankContract.
  pose proof (firstIndex_sorted s lb Hsorted) as Hfi.
  destruct (s <=? 0); [discriminate|].
  destruct (firstIndex _ lb) as [i|].
  - intro H. assert (Hr : r = 1 + Z.of_nat i) by congruence. lia.
  - destruct (List.length lb <? 3)%nat; [|discriminate].
    intro H. assert (Hr : r = Z.of_nat (List.length lb) + 1) by congruence.
    lia.
Qed.

Lemma X16_rank_counts_higher_witness :
  2 = 1 + Z.of_nat (higher 300 [mkEntry "a" 500; mkEntry "b" 300;
                                mkEntry "c" 100]).
Proof.
  apply (X16_rank_counts_higher 300).
  - repeat constructor; cbn; lia.
  - reflexivity.
Defined.

End RankEvaluatorMore.

(** ** Cleaning the starting word *)

Section Cleaning.
Import Words.

Lemma trimStart_head (s : list N) (c : N) (rest : list N) :
  trimStart s = c :: rest -> isWhiteSpace c = false.
Proof.
  induction s as [|a s IH]; cbn [trimStart]; [discriminate|].
  destruct (isWhiteSpace a) eqn:Ha; [exact IH|].
  intro H. now injection H as <- _.
Qed.

Lemma trimStart_fixed (c : N) (s : list N) :
  isWhiteSpace c = false -> trimStart (c :: s) = c :: s.
Proof. intro H. cbn [trimStart]. now rewrite H. Qed.

Lemma trimStart_idempotent (s : list N) :
  trimStart (trimStart s) = trimStart s.
Proof.
  destruct (trimStart s) as [|c rest] eqn:H; [reflexivity|].
  apply trimStart_fixed. exact (trimStart_head s c rest H).
Qed.

Lemma trimStart_incl (s : list N) : incl (trimStart s) s.
Proof.
  induction s as [|a s IH]; cbn [trimStart]; [apply incl_refl|].
  destruct (isWhiteSpace a); [now apply incl_tl | apply incl_refl].
Qed.

Lemma trimStart_snoc (s : list N) (c : N) :
  isWhiteSpace c = false -> trimStart (s ++ [c]) = (trimStart s ++ [c])%list.
Proof.
  intro Hc. induction s as [|a s IH]; cbn [trimStart List.app].
  - now rewrite Hc.
  - destruct (isWhiteSpace a); [exact IH | reflexivity].
Qed.

Lemma trimEnd_cons (c : N) (s : list N) :
  isWhiteSpace c = false -> trimEnd (c :: s) = c :: trimEnd s.
Proof.
  intro Hc. unfold trimEnd. cbn [rev].
  rewrite trimStart_snoc by exact Hc. now rewrite rev_unit.
Qed.

Lemma trimEnd_idempotent (s : list N) : trimEnd (trimEnd s) = trimEnd s.
Proof.
  unfold trimEnd. now rewrite rev_involutive, trimStart_idempotent.
Qed.

Lemma trimEnd_incl (s : list N) : incl (trimEnd s) s.
Proof.
  unfold trimEnd. intros x Hx. apply in_rev in Hx.
  apply trimStart_incl in Hx. now apply in_rev.
Qed.

Lemma trim_head (s : list N) (c : N) (rest : list N) :
  trim s = c :: rest -> isWhiteSpace c = false.
Proof.
  unfold trim. destruct (trimStart s) as [|a t] eqn:Ht.
  - discriminate.
  - pose proof (trimStart_head s a t Ht) as Ha.
    rewrite trimEnd_cons by exact Ha. intro H. now injection H as <- _.
Qed.

Lemma trim_last (s : list N) (c : N) (front : list N) :
  trim s = (front ++ [c])%list -> isWhiteSpace c = false.
Proof.
  unfold trim, trimEnd. intro H.
  apply (f_equal (@rev N)) in H. rewrite rev_involutive, rev_unit in H.
  exact (trimStart_head _ _ _ H).
Qed.

Lemma trim_idempotent (s : list N) : trim (trim s) = trim s.
Proof.
  unfold trim at 1.
  assert (H : trimStart (trim s) = trim s).
  { destruct (trim s) as [|c rest] eqn:Ht; [reflexivity|].
    apply trimStart_fixed. exact (trim_head s c rest Ht). }
  rewrite H. unfold trim. apply trimEnd_idempotent.
Qed.

Lemma trim_incl (s : list N) : incl (trim s) s.
Proof.
  unfold trim. eapply incl_tran; [apply trimEnd_incl | apply trimStart_incl].
Qed.

Lemma filter_all {A : Type} (p : A -> bool) (l : list A) :
  (forall x, In x l -> p x = true) -> filter p l = l.
Proof.
  induction l as [|a l IH]; intro H; cbn [filter]; [reflexivity|].
  rewrite (H a (or_introl eq_refl)). f_equal. apply IH.
  intros x Hx. apply H. now right.
Qed.

Lemma filter_all_false {A : Type} (p : A -> bool) (l : list A) :
  (forall x, In x l -> p x = false) -> filter p l = [].
Proof.
  induction l as [|a l IH]; intro H; cbn [filter]; [reflexivity|].
  rewrite (H a (or_introl eq_refl)). apply IH.
  intros x Hx. apply H. now right.
Qed.

Lemma trim_clean (s : list N) :
  (match s with [] => True | c :: _ => isWhiteSpace c = false end) ->
  (forall front c, s = (front ++ [c])%list -> isWhiteSpace c = false) ->
  trim s = s.
Proof.
  intros Hhead Hlast. unfold trim.
  assert (H : trimStart s = s).
  { destruct s as [|c rest]; [reflexivity | now apply trimStart_fixed]. }
  rewrite H. unfold trimEnd.
  destruct (rev s) as [|c rs] eqn:Hr.
  - apply (f_equal (@rev N)) in Hr. rewrite rev_involutive in Hr.
    now subst s.
  - assert (Hs : s = (rev rs ++ [c])%list).
    { apply (f_equal (@rev N)) in Hr. now rewrite rev_involutive in Hr. }
    rewrite trimStart_fixed by exact (Hlast _ _ Hs). cbn [rev].
    now symmetry.
Qed.

(** X17.  The starting word that [getRandomKoreanWord] returns holds no
    double quote, single quote or full stop, neither begins nor ends with
    white space, and cleaning it again changes nothing; a reply that has
    none of these to remove is returned as it is. *)
Theorem X17_cleaned_word (word : list N) :
  let cleaned := getRandomKoreanWord word in
  (forall c, In c cleaned -> isQuoteOrDot c = false)
  /\ (forall c rest, cleaned = c :: rest -> isWhiteSpace c = false)
  /\ (forall front c, cleaned = (front ++ [c])%list ->
                      isWhiteSpace c = false)
  /\ getRandomKoreanWord cleaned = cleaned
  /\ ((forall c, In c word -> isQuoteOrDot c = false) ->
      trim word = word ->
      cleaned = word).
Proof.
  cbv zeta. unfold getRandomKoreanWord.
  set (kept := filter (fun c => negb (isQuoteOrDot c)) word).
  assert (Hkept : forall c, In c (trim kept) -> isQuoteOrDot c = false).
  { intros c Hc. apply trim_incl in Hc. apply filter_In in Hc.
    destruct Hc as [_ Hc]. now apply negb_true_iff in Hc. }
  split; [exact Hkept|]. split; [intros c rest; apply trim_head|].
  split; [intros front c; apply trim_last|]. split.
  - rewrite filter_all; [apply trim_idempotent|].
    intros c Hc. apply negb_true_iff. now apply Hkept.
  - intros Hnone Htrim. unfold kept. rewrite filter_all; [exact Htrim|].
    intros c Hc. apply negb_true_iff. now apply Hnone.
Qed.

Lemma X17_cleaned_word_witness :
  getRandomKoreanWord [48148; 45796]%N = [48148; 45796]%N.
Proof.
  apply (proj2 (proj2 (proj2 (proj2
           (X17_cleaned_word [48148; 45796]%N))))).
  - intros c [<-|[<-|[]]]; reflexivity.
  - reflexivity.
Defined.

(** X18.  A reply made only of quotes and full stops is not empty for
    [generateGeminiContent], yet [getRandomKoreanWord] cleans it to the
    empty word: the emptiness check comes before the cleaning. *)
Theorem X18_reply_cleaned_to_nothing (text word : list N) :
  generateGeminiContent text = Some word ->
  (forall c, In c word -> isQuoteOrDot c = true) ->
  word <> [] /\ getRandomKoreanWord word = [].
Proof.
  unfold generateGeminiContent, getRandomKoreanWord.
  destruct (Nat.eqb_spec (List.length (trim text)) 0) as [|Hlen];
    [discriminate|].
  intro H. injection H as <-. intro Hall. split.
  - intro Hnil. rewrite Hnil in Hlen. now apply Hlen.
  - rewrite filter_all_false; [reflexivity|].
    intros c Hc. now rewrite (Hall c Hc).
Qed.

Lemma X18_reply_cleaned_to_nothing_witness :
  getRandomKoreanWord [34; 46; 34]%N = [].
Proof.
  apply (X18_reply_cleaned_to_nothing [32; 34; 46; 34; 10]%N).
  - reflexivity.
  - intros c [<-|[<-|[<-|[]]]]; reflexivity.
Defined.

End Cleaning.

(** ** The background music *)

Section Music.
Import Sound.

Lemma tuned_loaded (muted : bool) : tuned (loaded muted).
Proof. split; cbn; congruence. Qed.


Lemma tuned_play (lives : Z) (ctx : bool) (timer : N) (s : Sound.State) :
  tuned s -> tuned (playBackgroundMusic lives ctx timer s).
Proof.
  intro H. unfold playBackgroundMusic.
  destruct (musicLoopTimeoutId s) eqn:Hid; [exact H|].
  destruct (isMuted s) eqn:Hmuted; [exact H|].
  destruct ctx; split; cbn; congruence.
Qed.







(** X20.  [updateBackgroundMusic] never starts music: with no loop
    running it changes nothing.  With a loop running, unmuted, and an
    audio context at hand, it leaves a loop running with [currentLives]
    set to the lives clamped to 1..3, and the melody for that value.
    Calling it twice with the same arguments is the same as calling it
    once. *)
Theorem X20_update_switches_track (lives : Z) (ctx : bool) (timer : N)
        (s : Sound.State) :
  (musicLoopTimeoutId s = None ->
   updateBackgroundMusic lives ctx timer s = s)
  /\ (musicLoopTimeoutId s <> None -> isMuted s = false -> ctx = true ->
      tuned s ->
      let s' := updateBackgroundMusic lives ctx timer s in
      musicLoopTimeoutId s' <> None
      /\ currentLives s' = Z.max 1 (Z.min 3 lives)
      /\ track s' = trackFor (Z.max 1 (Z.min 3 lives))
      /\ isMuted s' = false)
  /\ updateBackgroundMusic lives ctx timer
                           (updateBackgroundMusic lives ctx timer s)
     = updateBackgroundMusic lives ctx timer s.
Proof.
  split; [|split].
  - intro H. unfold updateBackgroundMusic. now rewrite H.
  - intros Hid Hmuted -> [_ Ht]. cbv zeta. unfold updateBackgroundMusic.
    destruct (musicLoopTimeoutId s) as [id|] eqn:Hs; [|congruence].
    destruct (Z.eqb_spec (Z.max 1 (Z.min 3 lives)) (currentLives s))
      as [Heq|Hne].
    + rewrite Hs. repeat split; try congruence.
      rewrite Heq. apply Ht. congruence.
    + unfold playBackgroundMusic, stopBackgroundMusic. cbn.
      rewrite Hmuted. cbn. repeat split; congruence.
  - assert (Hfix : forall x,
               musicLoopTimeoutId x = None
               \/ currentLives x = Z.max 1 (Z.min 3 lives) ->
               updateBackgroundMusic lives ctx timer x = x).
    { intros x Hx. unfold updateBackgroundMusic.
      destruct (musicLoopTimeoutId x); [|reflexivity].
      destruct Hx as [Hx|Hx]; [discriminate|].
      now rewrite Hx, Z.eqb_refl. }
    apply Hfix. unfold updateBackgroundMusic.
    destruct (musicLoopTimeoutId s) as [id|] eqn:Hs; [|now left].
    destruct (Z.eqb_spec (Z.max 1 (Z.min 3 lives)) (currentLives s))
      as [Heq|Hne]; [now right|].
    unfold playBackgroundMusic, stopBackgroundMusic.
    cbn [Sound.musicLoopTimeoutId Sound.isMuted Sound.currentLives].
    destruct (isMuted s); [now left|].
    destruct ctx; cbn [negb Sound.musicLoopTimeoutId Sound.currentLives];
      [now right | now left].
Qed.

Lemma X20_update_switches_track_witness :
  track (updateBackgroundMusic 0 true 9
           (playBackgroundMusic 3 true 7 (loaded false)))
  = Critical.
Proof.
  apply (proj1 (proj2 (X20_update_switches_track
                         0 true 9
                         (playBackgroundMusic 3 true 7 (loaded false))))).
  - discriminate.
  - reflexivity.
  - reflexivity.
  - apply tuned_play, tuned_loaded.
Defined.

End Music.

(** ** The music and the session *)

Section MusicInSession.
Import Sound.














End MusicInSession.

(** ** GameOverScreen: the local record *)

Section Registration.
Import HighScore.

Ltac screen_fields :=
  cbn [mountEffect fetchLeaderboardAndRank_begin
       fetchLeaderboardAndRank_resume handleNameSubmit_refreshed
       setLeaderboard setIsLoadingLeaderboard setLocalHighScore
       setLocalPlayerName setPlayerRank setIsNewLocalHighScore
       setPlayerName setIsSubmitting setSubmissionComplete setError
       leaderboard isLoadingLeaderboard localHighScore localPlayerName
       playerRank isNewLocalHighScore playerName isSubmitting
       submissionComplete error
       screen storage mount submission
       localHighScoreItem localPlayerNameItem] in *.

Lemma digits_codeUnits (u : Decimal.uint) : digits (codeUnits u) = u.
Proof.
  induction u; cbn [codeUnits digits]; [reflexivity|..];
    cbn [digit N.eqb Pos.eqb]; now rewrite IHu.
Qed.

Lemma codeUnits_head (u : Decimal.uint) :
  u <> Decimal.Nil ->
  exists c rest,
    codeUnits u = c :: rest
    /\ Words.isWhiteSpace c = false
    /\ (c =? 45)%N = false /\ (c =? 43)%N = false.
Proof.
  intro Hu. destruct u; [congruence|..]; cbn [codeUnits];
    eexists; eexists; (split; [reflexivity|]); now vm_compute.
Qed.

Lemma parseInt_digits (u : Decimal.uint) :
  u <> Decimal.Nil ->
  parseInt (codeUnits u) = Some (Z.of_uint u).
Proof.
  intro Hu. destruct (codeUnits_head u Hu) as (c & rest & Hc & Hw & Hm & Hp).
  unfold parseInt. rewrite Hc, (trimStart_fixed c rest Hw), Hm, Hp.
  cbn [fst snd]. rewrite <- Hc, digits_codeUnits.
  destruct u; [congruence|..]; reflexivity.
Qed.

(** What [String] writes, [parseInt] reads back. *)
Lemma parseInt_String (n : Z) : parseInt (String_ n) = Some n.
Proof.
  unfold String_.
  pose proof (DecimalZ.of_to n) as Hn.
  assert (Hnil : forall u, Z.to_int n = Decimal.Pos u \/
                           Z.to_int n = Decimal.Neg u -> u <> Decimal.Nil).
  { intros u Hu. destruct n as [|p|p]; cbn [Z.to_int] in Hu;
      destruct Hu as [Hu|Hu]; try discriminate; injection Hu as <-;
      try discriminate; apply DecimalPos.Unsigned.to_uint_nonnil. }
  destruct (Z.to_int n) as [u|u] eqn:Hi; cbn [Z.of_int] in Hn.
  - rewrite parseInt_digits by (apply Hnil; now left). now rewrite Hn.
  - assert (Hu : u <> Decimal.Nil) by (apply Hnil; now right).
    unfold parseInt. cbn [Words.trimStart].
    replace (Words.isWhiteSpace 45) with false by (now vm_compute).
    cbn [N.eqb Pos.eqb fst snd]. rewrite digits_codeUnits.
    destruct u; [congruence|..]; now rewrite Hn.
Qed.

Lemma gt_irrefl (n : Z) : gt n (Some n) = false.
Proof. cbn [gt]. lia. Qed.

Lemma saved_String (score : Z) (name : option (list N)) :
  savedScore (mkStorage (Some (String_ score)) name) = Some score.
Proof.
  unfold savedScore. cbn [localHighScoreItem].
  pose proof (parseInt_String score) as Hp.
  destruct (String_ score) as [|c s]; [discriminate Hp | exact Hp].
Qed.

Lemma Registered_firstRender (score : Z) (store : Storage) :
  Registered score store (HighScore.firstRender store).
Proof.
  unfold HighScore.firstRender.
  constructor; screen_fields; try discriminate; try congruence; auto.
Qed.

(** The mount effect takes the first render to the mounted screen. *)
Lemma mountEffect_mounted (score : Z) (store : Storage) :
  HighScore.step score (HighScore.firstRender store) MountEffect
  = Some (HighScore.mounted score store).
Proof. reflexivity. Qed.

Lemma Registered_step (score : Z) (store : Storage)
      (m m' : HighScore.Machine) (ev : HighScore.Event) :
  Registered score store m -> HighScore.step score m ev = Some m' ->
  Registered score store m'.
Proof.
  intros [Rf Rn Rb Rs Ra Rc] Hstep.
  destruct m as [st sto mt sub]. screen_fields.
  destruct ev as [|value| |outcome writes|data|data];
    cbn [HighScore.step] in Hstep; screen_fields.
  - (* the mount effect *)
    destruct mt as [|scoreToRank|]; [|discriminate|discriminate].
    destruct (Rf eq_refl) as (-> & -> & ->).
    injection Hstep as <-. unfold initial.
    constructor; screen_fields;
      destruct (gt score (savedScore store)); screen_fields;
      try discriminate; try congruence; auto.
  - (* typing *)
    destruct (formOffered st) eqn:Hform; [|discriminate].
    destruct (isSubmitting st) eqn:Hsub; [discriminate|].
    injection Hstep as <-.
    constructor; screen_fields; rewrite ?Hsub; try assumption.
    intro Hmt. destruct (Rf Hmt) as (-> & _). discriminate.
  - (* the form is submitted *)
    destruct (formOffered st) eqn:Hform; [|discriminate].
    destruct (isSubmitting st) eqn:Hsub; [discriminate|].
    cbn [negb andb] in Hstep.
    assert (Hmt : mt <> Committed).
    { intro Hmt. destruct (Rf Hmt) as (-> & _). discriminate. }
    unfold formOffered in Hform.
    apply andb_true_iff in Hform. destruct Hform as [Hnew Hdone].
    apply negb_true_iff in Hdone.
    assert (Hidle : sub = Idle).
    { destruct sub; [reflexivity| |];
        [destruct Rc as (_ & Rc & _) | destruct Rc as [Rc _]]; congruence. }
    subst sub.
    unfold handleNameSubmit_begin in Hstep.
    destruct (Words.trim (playerName st)) as [|c name] eqn:Hname;
      injection Hstep as <-; constructor; screen_fields; auto;
      try (intro; contradiction).
    repeat split; try assumption; try discriminate.
    rewrite <- Hname. apply trim_idempotent.
  - (* submitScore settles *)
    destruct sub as [|name|]; [discriminate| |discriminate].
    destruct Rc as (Hmt & Hsub & Hdone & Hnew & Hname & Htrim).
    assert (Hgt : gt score (savedScore store) = true)
      by (rewrite <- (Rn Hmt); exact Hnew).
    destruct outcome as [[]|msg]; [destruct writes|];
      cbn [handleNameSubmit_submitted] in Hstep;
      injection Hstep as <-; constructor; screen_fields; auto;
      try congruence; try (intro; contradiction).
  - (* the fetch of the mount effect settles *)
    destruct mt as [|scoreToRank|]; [discriminate| |discriminate].
    injection Hstep as <-.
    assert (Hmt : Fetching scoreToRank <> Committed) by discriminate.
    constructor; destruct data; screen_fields; auto; try discriminate;
      try (destruct sub; intuition congruence).
  - (* the refresh settles *)
    destruct sub as [|name|]; [discriminate|discriminate|].
    injection Hstep as <-.
    destruct Rc as [Hsub Hdone].
    constructor; destruct data; screen_fields; auto;
      try (intro Hmt; destruct (Rf Hmt) as (_ & _ & ?); discriminate).
Qed.
Lemma Registered_run (score : Z) (store : Storage)
      (evs : list HighScore.Event) :
  forall m m' : HighScore.Machine,
    Registered score store m -> HighScore.run score m evs = Some m' ->
    Registered score store m'.
Proof.
  induction evs as [|ev evs IH]; intros m m' HR Hrun;
    cbn [HighScore.run] in Hrun.
  - now injection Hrun as <-.
  - destruct (HighScore.step score m ev) as [m1|] eqn:Hstep; [|discriminate].
    exact (IH m1 m' (Registered_step _ _ _ _ _ HR Hstep) Hrun).
Qed.

Lemma Registered_reachable (score : Z) (store : Storage)
      (m : HighScore.Machine) :
  HighScore.reachable score store m -> Registered score store m.
Proof.
  intros [evs Hrun].
  exact (Registered_run _ _ evs _ _ (Registered_firstRender score store)
                        Hrun).
Qed.

Lemma reachable_registration :
  HighScore.reachable 3400 before (HighScore.after 3400 before registration).
Proof. exists registration. vm_compute. reflexivity. Qed.

(** X22 (GameOverScreen, handleNameSubmit and the mount effect): once a
    registration is complete, the storage holds the score and the trimmed,
    non-empty name that the screen shows; a screen mounted on that storage
    reads exactly them back, and offers the name form again only for a
    score above the registered one. *)
Theorem X22_registered_record_is_read_back (score : Z) (store : Storage)
        (m : HighScore.Machine) :
  HighScore.reachable score store m ->
  submissionComplete (screen m) = true ->
  savedScore (storage m) = Some score
  /\ savedName (storage m) = localPlayerName (screen m)
  /\ Words.trim (savedName (storage m)) = savedName (storage m)
  /\ savedName (storage m) <> []
  /\ forall next : Z,
       let m' := HighScore.mounted next (storage m) in
       localHighScore (screen m') = Some score
       /\ localPlayerName (screen m') = localPlayerName (screen m)
       /\ formOffered (screen m') = (next >? score).
Proof.
  intros Hr Hdone.
  destruct (reg_after _ _ _ (Registered_reachable _ _ _ Hr) Hdone)
    as (_ & _ & Hne & Htrim & Hsto).
  assert (Hs : savedScore (storage m) = Some score)
    by (rewrite Hsto; apply saved_String).
  assert (Hn : savedName (storage m) = localPlayerName (screen m)).
  { rewrite Hsto. unfold savedName. cbn [localPlayerNameItem getItemOr].
    destruct (localPlayerName (screen m)); [congruence | reflexivity]. }
  split; [exact Hs|]. split; [exact Hn|].
  split; [now rewrite Hn|]. split; [now rewrite Hn|].
  intro next. cbv zeta. unfold HighScore.mounted. cbn [screen].
  unfold mountEffect. rewrite Hs, Hn. cbn [gt]. unfold formOffered.
  destruct (next >? score); screen_fields; repeat split; reflexivity.
Qed.

Lemma X22_registered_record_is_read_back_witness :
  savedScore (storage (HighScore.after 3400 before registration)) = Some 3400
  /\ savedName (storage (HighScore.after 3400 before registration))
     = [76; 101; 101]%N.
Proof.
  assert (Hdone : submissionComplete
                    (screen (HighScore.after 3400 before registration))
                  = true) by (vm_compute; reflexivity).
  destruct (X22_registered_record_is_read_back 3400 before _
              reachable_registration Hdone) as (Hs & Hn & _).
  split; [exact Hs|]. rewrite Hn. vm_compute. reflexivity.
Defined.

(** X23 (GameOverScreen, handleNameSubmit): the stored record only goes
    up.  Whatever happens on the screen, the storage is either what it was
    at mount, or it holds the score of the session, and then the stored
    record was a number below that score. *)
Theorem X23_stored_record_only_grows (score : Z) (store : Storage)
        (m : HighScore.Machine) :
  HighScore.reachable score store m ->
  storage m = store
  \/ (exists old : Z,
        savedScore store = Some old /\ old < score
        /\ savedScore (storage m) = Some score).
Proof.
  intro Hr. pose proof (Registered_reachable _ _ _ Hr) as HR.
  destruct (reg_storage _ _ _ HR) as [Hsame|[Hgt Hitem]]; [now left|].
  right.
  destruct (savedScore store) as [old|] eqn:Hold; [|discriminate].
  exists old. split; [reflexivity|]. cbn [gt] in Hgt.
  split; [lia|].
  destruct (storage m) as [item name]. cbn [localHighScoreItem] in Hitem.
  subst item. apply saved_String.
Qed.

Lemma X23_stored_record_only_grows_witness :
  storage (HighScore.after 3400 before registration) <> before
  /\ savedScore before = Some 1200
  /\ savedScore (storage (HighScore.after 3400 before registration))
     = Some 3400.
Proof.
  assert (Hneq : storage (HighScore.after 3400 before registration)
                 <> before) by (vm_compute; discriminate).
  split; [exact Hneq|].
  destruct (X23_stored_record_only_grows 3400 before _
              reachable_registration) as [Hsame|(old & Hold & _ & Hnew)];
    [contradiction|].
  split; [vm_compute; reflexivity | exact Hnew].
Defined.



(** The [submitScore] calls of a trace that succeed. *)
Lemma registrations_run (score : Z) (store : Storage)
      (evs : list HighScore.Event) :
  forall m m' : HighScore.Machine,
    Registered score store m -> HighScore.run score m evs = Some m' ->
    (Nat.b2n (submissionComplete (screen m)) + registrations evs)%nat
    = (Nat.b2n (submissionComplete (screen m')) + failedWrites evs)%nat.
Proof.
  induction evs as [|ev evs IH]; intros m m' HR Hrun;
    cbn [HighScore.run] in Hrun.
  - injection Hrun as <-. reflexivity.
  - destruct (HighScore.step score m ev) as [m1|] eqn:Hstep; [|discriminate].
    pose proof (Registered_step _ _ _ _ _ HR Hstep) as HR1.
    pose proof (IH m1 m' HR1 Hrun) as Hrest.
    assert (Hone : (Nat.b2n (submissionComplete (screen m))
                    + Nat.b2n (isRegistration ev))%nat
                   = (Nat.b2n (submissionComplete (screen m1))
                      + Nat.b2n (isFailedWrite ev))%nat).
    { destruct HR as [Rf Rn Rb Rs Ra Rc]. clear IH Hrun HR1 Hrest.
      destruct m as [st sto mt sub]. screen_fields.
      destruct ev as [|value| |outcome writes|data|data];
        cbn [HighScore.step] in Hstep; screen_fields;
        cbn [isRegistration isFailedWrite].
      - destruct mt; [|discriminate|discriminate].
        destruct (Rf eq_refl) as (-> & _).
        injection Hstep as <-. unfold initial. screen_fields.
        destruct (gt score (savedScore sto)); screen_fields; reflexivity.
      - destruct (formOffered st && negb (isSubmitting st)); [|discriminate].
        injection Hstep as <-. screen_fields. reflexivity.
      - destruct (formOffered st && negb (isSubmitting st)); [|discriminate].
        unfold handleNameSubmit_begin in Hstep.
        destruct (Words.trim (playerName st));
          injection Hstep as <-; screen_fields; reflexivity.
      - destruct sub as [|name|]; [discriminate| |discriminate].
        destruct Rc as (_ & _ & Hdone & _).
        destruct outcome as [[]|msg]; [destruct writes|];
          cbn [handleNameSubmit_submitted] in Hstep;
          injection Hstep as <-; screen_fields; rewrite Hdone;
          reflexivity.
      - destruct mt; [discriminate| |discriminate]. injection Hstep as <-.
        destruct data; screen_fields; reflexivity.
      - destruct sub as [|name|]; [discriminate|discriminate|].
        injection Hstep as <-. destruct data; screen_fields; reflexivity. }
    unfold registrations, failedWrites in *. cbn [filter].
    destruct (isRegistration ev); destruct (isFailedWrite ev);
      cbn [List.length Nat.b2n] in *; lia.
Qed.

(** X25 (GameOverScreen, handleNameSubmit): how often a score is
    registered.  In every sequence of events that the screen admits, the
    [submitScore] calls that succeeded are those after which a write to
    [localStorage] failed, and one more if the screen shows the
    registration as complete.  So without a failed write a score is
    registered at most once; after a failed write the form is offered
    again and the same score can be registered again. *)
Theorem X25_registrations_counted (score : Z) (store : Storage)
        (evs : list HighScore.Event) (m : HighScore.Machine) :
  HighScore.run score (HighScore.firstRender store) evs = Some m ->
  registrations evs
  = (Nat.b2n (submissionComplete (screen m)) + failedWrites evs)%nat
  /\ (failedWrites evs = 0%nat -> (registrations evs <= 1)%nat).
Proof.
  intro Hrun.
  pose proof (registrations_run score store evs _ _
                (Registered_firstRender score store) Hrun) as H.
  cbn [HighScore.firstRender screen initial submissionComplete Nat.b2n
       Nat.add] in H.
  split; [exact H|].
  intro Hnone. rewrite H, Hnone.
  destruct (submissionComplete (screen m)); cbn [Nat.b2n]; lia.
Qed.

Lemma X25_registrations_counted_witness :
  registrations registration = 1%nat
  /\ registrations registeredTwice = 2%nat.
Proof.
  assert (Hrun : HighScore.run 3400 (HighScore.firstRender before)
                               registration
                 = Some (HighScore.after 3400 before registration))
    by (vm_compute; reflexivity).
  assert (Hrun2 : HighScore.run 3400 (HighScore.firstRender before)
                                registeredTwice
                  = Some (HighScore.after 3400 before registeredTwice))
    by (vm_compute; reflexivity).
  split.
  - rewrite (proj1 (X25_registrations_counted 3400 before registration _
                      Hrun)).
    vm_compute. reflexivity.
  - rewrite (proj1 (X25_registrations_counted 3400 before registeredTwice _
                      Hrun2)).
    vm_compute. reflexivity.
Defined.

End Registration.

(** ** The number in the oracle's reply *)

Section NumberInReply.
Import Reply.





Lemma dot_not_digit (c : N) : (c =? 46)%N = true -> isDigit c = false.
Proof. intro H. apply N.eqb_eq in H. subst c. reflexivity. Qed.



Lemma matchAt_none (s : list N) :
  matchAt s = None -> startsWithDigit s = false.
Proof.
  destruct s as [|c s]; [reflexivity|]. cbn [matchAt startsWithDigit].
  destruct ((c =? 45)%N && startsWithDigit s); [discriminate|].
  now destruct (isDigit c).
Qed.

(** X26 (geminiService.ts, calculateSimilarity): the reply of the oracle
    yields no number to parse exactly when it holds no digit at all. *)
Theorem X26_no_number_without_digit (text : list N) :
  numberMatch text = None <-> forallb (fun c => negb (isDigit c)) text = true.
Proof.
  induction text as [|c text IH].
  - cbn. tauto.
  - cbn [numberMatch forallb].
    destruct (matchAt (c :: text)) as [m|] eqn:Hm.
    + split; [discriminate|]. intro H. exfalso.
      apply andb_true_iff in H. destruct H as [Hc Ht].
      apply negb_true_iff in Hc.
      cbn [matchAt] in Hm. rewrite Hc in Hm.
      destruct (c =? 45)%N; cbn [andb] in Hm; [|discriminate].
      destruct text as [|d text]; cbn [startsWithDigit] in Hm;
        [discriminate|].
      cbn [forallb] in Ht. apply andb_true_iff in Ht. destruct Ht as [Hd _].
      apply negb_true_iff in Hd. rewrite Hd in Hm. discriminate.
    + pose proof (matchAt_none _ Hm) as Hc. cbn [startsWithDigit] in Hc.
      rewrite Hc. cbn [negb andb]. exact IH.
Qed.



End NumberInReply.
